(** * SequentialBucket: the sequential rate-limit bucket of the REST layer

    A shallow embedding of [src/lib/rest/SequentialBucket.ts] and the
    properties of its drain loop.

    Numbers.  The fields [limit], [remaining], [reset], [last], the value of
    [Date.now()] and the latency are JavaScript numbers holding integral
    millisecond counts and permit counts; they are modelled as [Z].

    Control.  The class is driven by callbacks.  Every method of the bucket
    ends with its only nested call ([queue] ends with [check], [check] ends
    with the invocation of the dequeued function, the two closures end with
    [check(true)]), so whatever a work item or the runtime does, the bucket
    only ever observes a flat sequence of entries into its code: a call of
    [queue], a call of the completion closure handed to an invoked function,
    the firing of a timer, and, from the outside, writes to the public
    fields, to the shared latency object, and the passage of time.  These
    are the [event]s below; a function that calls its completion closure
    synchronously is the event [EDone] immediately after its invocation. *)

From Stdlib Require Import ZArith Lia.
From stdpp Require Import base list gmap.

Local Open Scope Z_scope.

(** ** Data *)

(** A queued function [(cb: () => void) => void], known by its identity. *)
Definition work := nat.

(** [processing: NodeJS.Timeout | boolean]. *)
Inductive processing_t :=
| PBool (b : bool)
| PTimeout (h : nat).

(** JavaScript truthiness of the [processing] field: a [Timeout] object is
    truthy, a boolean is itself. *)
Definition truthy (p : processing_t) : bool :=
  match p with
  | PBool b => b
  | PTimeout _ => true
  end.

(** Modelled from the spec: the interface [LatencyRef] is declared in
    [../types/request-handler], which is not part of the sources at hand;
    the spec (section 3) gives it one field read by the bucket, [latency],
    a duration in milliseconds written by the network layer. *)
Record LatencyRef := mkLatencyRef { latency : Z }.

(** The fields of the class.  The field [latencyRef] is a reference to an
    object shared with the rest of the client; the object itself lives in
    the [world] below. *)
Record SequentialBucket := mkBucket {
  _queue : list work;
  last : Z;
  limit : Z;
  processing : processing_t;
  remaining : Z;
  reset : Z
}.

(** A timer armed by [setTimeout(cb, delay)]. *)
Record Timer := mkTimer { armed_at : Z; delay : Z }.

Definition due (t : Timer) : Z := armed_at t + delay t.

(** The bucket together with what surrounds it: the shared latency object,
    the clock read by [Date.now()], the timers of the runtime that have
    been armed and have neither fired nor been cleared, and two records of
    what the bucket did: the functions it invoked, oldest first, and the
    invoked functions whose completion closure has not been called yet. *)
Record world := mkWorld {
  bucket : SequentialBucket;
  latencyRef : LatencyRef;
  clock : Z;
  timers : gmap nat Timer;
  next_handle : nat;
  invoked : list work;
  in_flight : list work
}.

(** Field assignments. *)
Definition set_queue (q : list work) (b : SequentialBucket) :=
  mkBucket q (last b) (limit b) (processing b) (remaining b) (reset b).
Definition set_last (v : Z) (b : SequentialBucket) :=
  mkBucket (_queue b) v (limit b) (processing b) (remaining b) (reset b).
Definition set_limit (v : Z) (b : SequentialBucket) :=
  mkBucket (_queue b) (last b) v (processing b) (remaining b) (reset b).
Definition set_processing (p : processing_t) (b : SequentialBucket) :=
  mkBucket (_queue b) (last b) (limit b) p (remaining b) (reset b).
Definition set_remaining (v : Z) (b : SequentialBucket) :=
  mkBucket (_queue b) (last b) (limit b) (processing b) v (reset b).
Definition set_reset (v : Z) (b : SequentialBucket) :=
  mkBucket (_queue b) (last b) (limit b) (processing b) (remaining b) v.

Definition set_bucket (b : SequentialBucket) (w : world) :=
  mkWorld b (latencyRef w) (clock w) (timers w) (next_handle w)
          (invoked w) (in_flight w).
Definition set_latencyRef (r : LatencyRef) (w : world) :=
  mkWorld (bucket w) r (clock w) (timers w) (next_handle w)
          (invoked w) (in_flight w).
Definition set_clock (t : Z) (w : world) :=
  mkWorld (bucket w) (latencyRef w) t (timers w) (next_handle w)
          (invoked w) (in_flight w).

(** ** The runtime *)

(** [setTimeout(cb, d)]: arms a one-shot timer and returns its handle, a
    new one at every call. *)
Definition setTimeout (d : Z) (w : world) : nat * world :=
  (next_handle w,
   mkWorld (bucket w) (latencyRef w) (clock w)
           (<[next_handle w := mkTimer (clock w) d]> (timers w))
           (S (next_handle w)) (invoked w) (in_flight w)).

(** [clearTimeout(h)]. *)
Definition clearTimeout (h : nat) (w : world) : world :=
  mkWorld (bucket w) (latencyRef w) (clock w) (delete h (timers w))
          (next_handle w) (invoked w) (in_flight w).

(** Calling a dequeued function with its completion closure: the function
    is now in flight. *)
Definition invoke (func : work) (w : world) : world :=
  mkWorld (bucket w) (latencyRef w) (clock w) (timers w) (next_handle w)
          (invoked w ++ [func]) (func :: in_flight w).

Fixpoint remove_one (func : work) (l : list work) : list work :=
  match l with
  | [] => []
  | x :: l' => if decide (x = func) then l' else x :: remove_one func l'
  end.

(** The completion closure of [func] has been called. *)
Definition completed (func : work) (w : world) : world :=
  mkWorld (bucket w) (latencyRef w) (clock w) (timers w) (next_handle w)
          (invoked w) (remove_one func (in_flight w)).

(** ** The class *)

(** [new SequentialBucket(limit, latencyRef)]. *)
Definition constructor (limit0 : Z) : SequentialBucket :=
  {| _queue := []; last := 0; limit := limit0; processing := PBool false;
     remaining := limit0; reset := 0 |}.

(** The program state right after the construction of a bucket, with the
    shared latency object [r] and the clock at [t]. *)
Definition fresh_world (limit0 : Z) (r : LatencyRef) (t : Z) : world :=
  {| bucket := constructor limit0; latencyRef := r; clock := t;
     timers := ∅; next_handle := 0%nat; invoked := []; in_flight := [] |}.

(** Lines 39-42 of [check]: the window-refill step. *)
Definition window_refill (now offset : Z) (b : SequentialBucket)
  : SequentialBucket :=
  if (reset b =? 0) || (reset b <? now - offset)
  then set_remaining (limit b) (set_reset (now - offset) b)
  else b.

(** The argument of [setTimeout] at line 48. *)
Definition wake_delay (now offset : Z) (b : SequentialBucket) : Z :=
  Z.max 0 (reset b - now + offset) + 1.

(** [private check(force = false)].  The two closures it creates are
    [timer_cb] and [completion_cb] below. *)
Definition check (force : bool) (w : world) : world :=
  let b := bucket w in
  match _queue b with
  | [] =>
      if truthy (processing b) then
        let w1 := match processing b with
                  | PTimeout h => clearTimeout h w
                  | PBool _ => w
                  end in
        set_bucket (set_processing (PBool false) b) w1
      else w
  | func :: rest =>
      if truthy (processing b) && negb force then w
      else
        let now := clock w in
        let offset := latency (latencyRef w) in
        let b1 := set_last now (window_refill now offset b) in
        if remaining b1 <=? 0 then
          let '(h, w1) := setTimeout (wake_delay now offset b1) w in
          set_bucket (set_processing (PTimeout h) b1) w1
        else
          let b2 := set_processing (PBool true)
                      (set_remaining (remaining b1 - 1) b1) in
          invoke func (set_bucket (set_queue rest b2) w)
  end.

(** The closure passed to [setTimeout] at lines 45-48. *)
Definition timer_cb (w : world) : world :=
  check true (set_bucket (set_processing (PBool false) (bucket w)) w).

(** The closure passed to the dequeued function at lines 53-59. *)
Definition completion_cb (w : world) : world :=
  match _queue (bucket w) with
  | [] => set_bucket (set_processing (PBool false) (bucket w)) w
  | _ :: _ => check true w
  end.

(** [queue(func, priority = false)]. *)
Definition queue (func : work) (priority : bool) (w : world) : world :=
  let b := bucket w in
  let q := if priority then func :: _queue b else _queue b ++ [func] in
  check false (set_bucket (set_queue q b) w).

(** ** Executions *)

Inductive event :=
| EQueue (func : work) (priority : bool)
| EDone (func : work)
| ETimeout (h : nat)
| ETick (d : Z)
| ESetLimit (v : Z)
| ESetRemaining (v : Z)
| ESetReset (v : Z)
| ESetLatency (v : Z).

(** The runtime fires the timer [h]: nothing happens unless [h] is armed
    and its delay has elapsed; a timer fires once. *)
Definition fire (h : nat) (w : world) : world :=
  match timers w !! h with
  | Some t => if due t <=? clock w then timer_cb (clearTimeout h w) else w
  | None => w
  end.

Definition step (e : event) (w : world) : world :=
  match e with
  | EQueue func priority => queue func priority w
  | EDone func => completion_cb (completed func w)
  | ETimeout h => fire h w
  | ETick d => set_clock (clock w + d) w
  | ESetLimit v => set_bucket (set_limit v (bucket w)) w
  | ESetRemaining v => set_bucket (set_remaining v (bucket w)) w
  | ESetReset v => set_bucket (set_reset v (bucket w)) w
  | ESetLatency v => set_latencyRef (mkLatencyRef v) w
  end.

Fixpoint run (tr : list event) (w : world) : world :=
  match tr with
  | [] => w
  | e :: tr' => run tr' (step e w)
  end.

(** The contract of section 4.2 of the spec on work items: a completion
    closure is called only by a function that is in flight, that is, at
    most once per invocation. *)
Definition event_ok (e : event) (w : world) : bool :=
  match e with
  | EDone func => bool_decide (func ∈ in_flight w)
  | _ => true
  end.

Fixpoint well_behaved (tr : list event) (w : world) : bool :=
  match tr with
  | [] => true
  | e :: tr' => event_ok e w && well_behaved tr' (step e w)
  end.

(** ** Notions used in the statements *)

(** The bucket as the quota check of line 44 sees it, up to [last]. *)
Definition refilled (w : world) : SequentialBucket :=
  window_refill (clock w) (latency (latencyRef w)) (bucket w).

(** The evaluation gets past the two early returns of lines 25-36. *)
Definition reaches_quota_check (force : bool) (w : world) : bool :=
  match _queue (bucket w) with
  | [] => false
  | _ :: _ => negb (truthy (processing (bucket w)) && negb force)
  end.

(** The value of [limit] after the events [tr], going by the writes of the
    external layer alone. *)
Fixpoint written_limit (tr : list event) (v0 : Z) : Z :=
  match tr with
  | [] => v0
  | ESetLimit v :: tr' => written_limit tr' v
  | _ :: tr' => written_limit tr' v0
  end.

(** The same for [latencyRef.latency]. *)
Fixpoint written_latency (tr : list event) (v0 : Z) : Z :=
  match tr with
  | [] => v0
  | ESetLatency v :: tr' => written_latency tr' v
  | _ :: tr' => written_latency tr' v0
  end.

(** What holds between the entries into the bucket's code: either nothing
    is in flight, and then at most one timer is armed, the one whose handle
    [processing] holds; or one function is in flight, [processing] is
    [true] and no timer is armed. *)
Definition one_at_a_time (w : world) : Prop :=
  match in_flight w with
  | [] => timers w = ∅ \/
          exists h t, timers w = {[h := t]} /\
                      processing (bucket w) = PTimeout h
  | [_] => processing (bucket w) = PBool true /\ timers w = ∅
  | _ => False
  end.

(** The functions handed to the bucket so far, in the order in which they
    leave it: those already invoked, then the queue from its head. *)
Definition release_order (w : world) : list work :=
  invoked w ++ _queue (bucket w).

(** [a] has been invoked, and [b] after it. *)
Definition released_before (a b : work) (w : world) : Prop :=
  [a; b] `sublist_of` invoked w.

(** Section 8 of the spec, last scenario, at a concrete instant: the clock
    shows 10000, [remaining] is 0, [reset] is 1000 ms ahead, the latency
    is 50 ms, one function is queued and nothing is in progress. *)
Definition exhausted_scenario : world :=
  set_bucket {| _queue := [7%nat]; last := 9000; limit := 5;
                processing := PBool false; remaining := 0; reset := 11000 |}
             (fresh_world 5 (mkLatencyRef 50) 10000).

(** The wake-up armed by [check()] in state [w] is fired by the runtime
    when [ms] milliseconds have passed, and the bucket then invokes a
    function. *)
Definition wake_up_releases_after (ms : Z) (w : world) : Prop :=
  let w1 := check false w in
  let w2 := step (ETimeout (next_handle w)) (step (ETick ms) w1) in
  invoked w2 <> invoked w1.

(** Settles a closed decidable proposition by evaluating its decision
    procedure. *)
Ltac decide_by_evaluation :=
  match goal with
  | |- ?P => apply (bool_decide_unpack P); vm_compute; exact I
  end.

(** Every armed timer has a handle below the next one [setTimeout] will
    return. *)
Definition handles_fresh (w : world) : Prop :=
  forall h, is_Some (timers w !! h) -> (h < next_handle w)%nat.

(** The three situations of the drain loop, read off [processing]: idle
    with nothing queued; one function in flight; waiting for the one armed
    timer with functions queued. *)
Definition drain_state_ok (w : world) : Prop :=
  match processing (bucket w) with
  | PBool false =>
      in_flight w = [] /\ timers w = ∅ /\ _queue (bucket w) = []
  | PBool true =>
      (exists func, in_flight w = [func]) /\ timers w = ∅
  | PTimeout h =>
      in_flight w = [] /\ (exists t, timers w = {[h := t]}) /\
      _queue (bucket w) <> []
  end.

(** The functions passed to [queue] along [tr], in call order. *)
Fixpoint enqueued (tr : list event) : list work :=
  match tr with
  | [] => []
  | EQueue func _ :: tr' => func :: enqueued tr'
  | _ :: tr' => enqueued tr'
  end.

(** No event of [tr] is a write of the external layer to [limit] or
    [remaining]. *)
Definition quota_untouched (tr : list event) : bool :=
  forallb (fun e => match e with
                    | ESetLimit _ | ESetRemaining _ => false
                    | _ => true
                    end) tr.

(** The events of [tr] are entries into the bucket's code and forward
    movements of the clock: no write of the external layer. *)
Definition no_external_write (tr : list event) : bool :=
  forallb (fun e => match e with
                    | EQueue _ _ | EDone _ | ETimeout _ => true
                    | ETick d => 0 <=? d
                    | _ => false
                    end) tr.

(** The time that passes along [tr]. *)
Fixpoint elapsed (tr : list event) : Z :=
  match tr with
  | [] => 0
  | ETick d :: tr' => d + elapsed tr'
  | _ :: tr' => elapsed tr'
  end.

(** The state with the field [last] blanked. *)
Definition erase_last (w : world) : world :=
  set_bucket (set_last 0 (bucket w)) w.

(** Each function of [fs] is queued without priority and signals
    completion before the next one is queued. *)
Definition one_by_one (fs : list work) : list event :=
  flat_map (fun func => [EQueue func false; EDone func]) fs.

(** * Properties *)

(** A first execution, evaluated. *)
Example run_five :
  let w := run [EQueue 1 false; EDone 1; EQueue 2 false; EQueue 3 true;
                EQueue 4 false; EDone 2; EDone 3; EQueue 5 false]%nat
               (fresh_world 3 (mkLatencyRef 20) 1000) in
  invoked w = [1; 2; 3]%nat /\ in_flight w = [] /\
  _queue (bucket w) = [4; 5]%nat /\ remaining (bucket w) = 0 /\
  processing (bucket w) = PTimeout 0 /\
  timers w !! 0%nat = Some (mkTimer 1000 1).
Proof. vm_compute. repeat split. Qed.

(** ** One evaluation of the drain loop *)

Lemma window_refill_frame now offset b :
  _queue (window_refill now offset b) = _queue b /\
  last (window_refill now offset b) = last b /\
  limit (window_refill now offset b) = limit b /\
  processing (window_refill now offset b) = processing b.
Proof. unfold window_refill. by destruct (_ || _). Qed.

Lemma window_refill_elapsed now offset b :
  reset b = 0 \/ reset b < now - offset ->
  window_refill now offset b
  = set_remaining (limit b) (set_reset (now - offset) b).
Proof.
  intros H. unfold window_refill.
  destruct (reset b =? 0) eqn:E0; [done|].
  destruct (reset b <? now - offset) eqn:E1; [done|].
  apply Z.eqb_neq in E0. apply Z.ltb_ge in E1. lia.
Qed.

Lemma window_refill_current now offset b :
  reset b <> 0 -> now - offset <= reset b ->
  window_refill now offset b = b.
Proof.
  intros H0 H1. unfold window_refill.
  apply Z.eqb_neq in H0. apply Z.ltb_ge in H1. by rewrite H0, H1.
Qed.

Lemma check_skipped w :
  _queue (bucket w) <> [] -> truthy (processing (bucket w)) = true ->
  check false w = w.
Proof.
  intros Hq Hp. unfold check.
  destruct (_queue (bucket w)); [done|]. by rewrite Hp.
Qed.

Lemma check_exhausted force w :
  reaches_quota_check force w = true ->
  remaining (refilled w) <= 0 ->
  check force w
  = let b1 := set_last (clock w) (refilled w) in
    set_bucket (set_processing (PTimeout (next_handle w)) b1)
      (snd (setTimeout
              (wake_delay (clock w) (latency (latencyRef w)) b1) w)).
Proof.
  unfold reaches_quota_check, check, refilled. intros Hr Hx.
  destruct (_queue (bucket w)); [done|].
  apply negb_true_iff in Hr. rewrite Hr. cbn zeta.
  replace (remaining (set_last _ _) <=? 0) with true; [done|].
  symmetry. by apply Z.leb_le.
Qed.

Lemma check_released force w func rest :
  _queue (bucket w) = func :: rest ->
  truthy (processing (bucket w)) && negb force = false ->
  0 < remaining (refilled w) ->
  check force w
  = let b1 := set_last (clock w) (refilled w) in
    invoke func
      (set_bucket
         (set_queue rest
            (set_processing (PBool true)
               (set_remaining (remaining b1 - 1) b1))) w).
Proof.
  unfold check, refilled. intros Hq Hr Hx. rewrite Hq, Hr. cbn zeta.
  replace (remaining (set_last _ _) <=? 0) with false; [done|].
  symmetry. by apply Z.leb_gt.
Qed.

Lemma reaches_cases force w :
  reaches_quota_check force w = true ->
  exists func rest,
    _queue (bucket w) = func :: rest /\
    truthy (processing (bucket w)) && negb force = false.
Proof.
  unfold reaches_quota_check.
  destruct (_queue (bucket w)) as [|func rest]; [done|].
  intros H. apply negb_true_iff in H. eauto.
Qed.

(** An evaluation that does not reach the quota check invokes nothing and
    leaves the quota fields alone. *)
Lemma check_early_return force w :
  reaches_quota_check force w = false ->
  invoked (check force w) = invoked w /\
  in_flight (check force w) = in_flight w /\
  _queue (bucket (check force w)) = _queue (bucket w) /\
  remaining (bucket (check force w)) = remaining (bucket w) /\
  reset (bucket (check force w)) = reset (bucket w) /\
  last (bucket (check force w)) = last (bucket w).
Proof.
  unfold reaches_quota_check, check.
  destruct (_queue (bucket w)) eqn:Hq.
  - intros _. destruct (processing (bucket w)) as [[]|]; simpl; by rewrite ?Hq.
  - intros H. apply negb_false_iff in H. rewrite H. by rewrite Hq.
Qed.

(** ** Timer handles *)

Lemma handles_fresh_next w :
  handles_fresh w -> timers w !! next_handle w = None.
Proof.
  intros Hf. destruct (timers w !! next_handle w) eqn:E; [|done].
  specialize (Hf (next_handle w)). rewrite E in Hf.
  specialize (Hf (mk_is_Some _ _ eq_refl)). lia.
Qed.

Lemma handles_fresh_clearTimeout h w :
  handles_fresh w -> handles_fresh (clearTimeout h w).
Proof.
  intros Hf h' Hs. simpl in *. apply Hf.
  apply lookup_delete_is_Some in Hs. tauto.
Qed.

Lemma handles_fresh_check force w :
  handles_fresh w -> handles_fresh (check force w).
Proof.
  intros Hf. unfold check.
  destruct (_queue (bucket w)) as [|func rest].
  - destruct (processing (bucket w)) as [[]|h]; try done.
    simpl. intros h' Hs. by apply (handles_fresh_clearTimeout h w Hf h').
  - destruct (truthy _ && negb force); [done|]. cbn zeta.
    destruct (_ <=? 0); [|done].
    intros h' Hs. simpl in *.
    apply lookup_insert_is_Some in Hs as [->|[_ Hs]]; [lia|].
    specialize (Hf h' Hs). lia.
Qed.

Lemma handles_fresh_step e w :
  handles_fresh w -> handles_fresh (step e w).
Proof.
  intros Hf.
  destruct e as [func priority|func|h|d|v|v|v|v]; simpl step; try done.
  - unfold queue. cbn zeta. by apply handles_fresh_check.
  - unfold completion_cb.
    destruct (_queue (bucket (completed func w))); [done|].
    by apply handles_fresh_check.
  - unfold fire. destruct (timers w !! h); [|done].
    destruct (_ <=? _); [|done].
    unfold timer_cb. apply handles_fresh_check.
    intros h' Hs. by apply (handles_fresh_clearTimeout h w Hf h').
Qed.

(** In every state reached from a new bucket, the handle returned by the
    next [setTimeout] is not the handle of an armed timer. *)
Lemma handles_fresh_run tr limit0 r t :
  let w := run tr (fresh_world limit0 r t) in
  handles_fresh w /\ timers w !! next_handle w = None.
Proof.
  cbn zeta.
  assert (H : forall w, handles_fresh w -> handles_fresh (run tr w)).
  { induction tr as [|e tr IH]; intros w Hf; [done|].
    simpl. by apply IH, handles_fresh_step. }
  assert (H0 : handles_fresh (fresh_world limit0 r t)).
  { intros h Hs. simpl in Hs. rewrite lookup_empty in Hs.
    by destruct Hs. }
  split; [by apply H|]. by apply handles_fresh_next, H.
Qed.

(** ** Construction *)

(** C9.  For a positive [limit], the bucket built by the constructor has
    [remaining = limit], [reset = 0] and [last = 0], an empty queue and
    [processing = false]; no timer is armed for it.  Since [reset] is 0,
    the first evaluation, whatever the clock and the latency are by then,
    takes the refill branch: the first [queue] call sets [reset] to
    [now - latency], restores [remaining] to [limit] and releases the
    function at once. *)
Theorem constructor_initial_state (limit0 : Z) (r : LatencyRef) (t : Z) :
  0 < limit0 ->
  let w0 := fresh_world limit0 r t in
  let b0 := bucket w0 in
  (limit b0 = limit0 /\ remaining b0 = limit0 /\ reset b0 = 0 /\
   last b0 = 0 /\ _queue b0 = [] /\ processing b0 = PBool false /\
   truthy (processing b0) = false /\
   timers w0 = ∅ /\ in_flight w0 = [] /\ invoked w0 = []) /\
  forall w func priority,
    bucket w = b0 ->
    let now := clock w in
    let offset := latency (latencyRef w) in
    refilled w = set_remaining limit0 (set_reset (now - offset) b0) /\
    let w' := queue func priority w in
    reset (bucket w') = now - offset /\
    remaining (bucket w') = limit0 - 1 /\
    last (bucket w') = now /\
    invoked w' = invoked w ++ [func] /\
    _queue (bucket w') = [].
Proof.
  intros Hpos w0 b0. split; [by repeat split|].
  intros w func priority Hb now offset.
  assert (Hre : refilled w
                = set_remaining limit0 (set_reset (now - offset) b0)).
  { unfold refilled. rewrite Hb. apply window_refill_elapsed. by left. }
  split; [done|].
  set (w1 := set_bucket (set_queue [func] b0) w).
  assert (Hq : queue func priority w = check false w1).
  { unfold queue. rewrite Hb. by destruct priority. }
  assert (Hre1 : refilled w1
                 = set_remaining limit0 (set_reset (now - offset)
                                           (set_queue [func] b0))).
  { unfold refilled. apply window_refill_elapsed. by left. }
  cbn zeta. rewrite Hq.
  rewrite (check_released false w1 func []); [| done | done |].
  - rewrite Hre1. by repeat split.
  - rewrite Hre1. simpl. lia.
Qed.

Lemma constructor_initial_state_witness :
  0 < 5 /\
  let w' := queue 7%nat false (fresh_world 5 (mkLatencyRef 30) 1000) in
  reset (bucket w') = 970 /\ remaining (bucket w') = 4 /\
  invoked w' = [7%nat].
Proof.
  split; [lia|].
  destruct (constructor_initial_state 5 (mkLatencyRef 30) 1000 ltac:(lia))
    as [_ H].
  destruct (H (fresh_world 5 (mkLatencyRef 30) 1000) 7%nat false eq_refl)
    as (_ & H1 & H2 & _ & H3 & _).
  exact (conj H1 (conj H2 H3)).
Defined.

(** ** The guard of lines 34-36 *)

(** C8.  With a non-empty queue and [processing] truthy (a release in
    progress, or a wake-up scheduled), [check()] returns the program state
    it was given: nothing is invoked, no field of the bucket changes, no
    timer is armed or cleared; and so does any number of such calls in a
    row. *)
Theorem check_idempotent_while_busy (w : world) (n : nat) :
  _queue (bucket w) <> [] ->
  truthy (processing (bucket w)) = true ->
  check false w = w /\
  Nat.iter n (check false) w = w /\
  invoked (Nat.iter n (check false) w) = invoked w /\
  bucket (Nat.iter n (check false) w) = bucket w.
Proof.
  intros Hq Hp.
  assert (H1 : check false w = w) by by apply check_skipped.
  assert (Hn : Nat.iter n (check false) w = w).
  { induction n as [|n IH]; [done|]. simpl. by rewrite IH. }
  by rewrite Hn.
Qed.

Lemma check_idempotent_while_busy_witness :
  let w := run [EQueue 1 false; EQueue 2 false]%nat
               (fresh_world 2 (mkLatencyRef 0) 10) in
  _queue (bucket w) <> [] /\
  truthy (processing (bucket w)) = true /\
  Nat.iter 3 (check false) w = w.
Proof.
  cbn zeta. split; [by vm_compute|]. split; [by vm_compute|].
  refine (proj1 (proj2 (check_idempotent_while_busy _ 3 _ _)));
    by vm_compute.
Defined.

(** ** The quota check *)

(** C3.  In an evaluation that gets past the two early returns, with [now]
    the clock and [offset] the latency: if [reset] is 0 or
    [reset < now - offset], the refill step sets [reset] to [now - offset]
    and [remaining] to [limit]; otherwise it leaves both as they are; it
    touches no other field.  The release decision is then taken on the
    refilled bucket: the evaluation ends with the refilled [reset], and it
    invokes a function exactly when the refilled [remaining] is positive. *)
Theorem window_refill_heuristic (force : bool) (w : world) :
  reaches_quota_check force w = true ->
  let now := clock w in
  let offset := latency (latencyRef w) in
  let b := bucket w in
  let b1 := window_refill now offset b in
  let w' := check force w in
  (reset b = 0 \/ reset b < now - offset ->
   reset b1 = now - offset /\ remaining b1 = limit b) /\
  (~ (reset b = 0 \/ reset b < now - offset) ->
   reset b1 = reset b /\ remaining b1 = remaining b) /\
  (_queue b1 = _queue b /\ last b1 = last b /\ limit b1 = limit b /\
   processing b1 = processing b) /\
  reset (bucket w') = reset b1 /\
  (remaining b1 <= 0 ->
   remaining (bucket w') = remaining b1 /\ invoked w' = invoked w) /\
  (0 < remaining b1 ->
   remaining (bucket w') = remaining b1 - 1 /\
   exists func, invoked w' = invoked w ++ [func]).
Proof.
  intros Hr now offset b b1 w'.
  destruct (reaches_cases _ _ Hr) as (func & rest & Hq & Hg).
  split; [|split; [|split; [|split; [|split]]]].
  - intros H. subst b1. by rewrite window_refill_elapsed.
  - intros H. subst b1. rewrite window_refill_current; [done| |]; lia.
  - apply window_refill_frame.
  - destruct (Z_le_gt_dec (remaining b1) 0) as [Hle|Hgt].
    + subst w'. by rewrite check_exhausted.
    + subst w'. rewrite (check_released _ _ _ _ Hq Hg); [done|].
      fold b1 in Hgt |- *. unfold refilled. fold now offset b b1. lia.
  - intros Hle. subst w'. by rewrite check_exhausted.
  - intros Hgt. subst w'. rewrite (check_released _ _ _ _ Hq Hg); [|done].
    split; [done|]. by exists func.
Qed.

Lemma window_refill_heuristic_witness :
  let w := set_bucket (mkBucket [4%nat] 0 3 (PBool false) 0 500)
                      (fresh_world 3 (mkLatencyRef 20) 1000) in
  reaches_quota_check false w = true /\
  reset (bucket (check false w)) = 980 /\
  remaining (bucket (check false w)) = 2.
Proof.
  cbn zeta. split; [by vm_compute|].
  pose proof (window_refill_heuristic false
    (set_bucket (mkBucket [4%nat] 0 3 (PBool false) 0 500)
                (fresh_world 3 (mkLatencyRef 20) 1000)) eq_refl)
    as (_ & _ & _ & H1 & _ & H2).
  split; [exact H1|]. apply H2. by vm_compute.
Defined.

(** C2.  Whatever the fields hold when [check] is entered, [remaining] at
    or below zero included: if the evaluation invokes a function, then the
    queue was non-empty, [remaining] was positive once the refill step had
    been applied, the function invoked is the head of the queue and nothing
    else, and the evaluation leaves [remaining] exactly one below its
    refilled value.  Conversely, with the refilled [remaining] at or below
    zero nothing is invoked and [remaining] is not decremented. *)
Theorem no_release_without_quota (force : bool) (w : world) :
  let w' := check force w in
  (invoked w' <> invoked w ->
   0 < remaining (refilled w) /\
   remaining (bucket w') = remaining (refilled w) - 1 /\
   exists func rest,
     _queue (bucket w) = func :: rest /\
     invoked w' = invoked w ++ [func] /\
     in_flight w' = func :: in_flight w /\
     _queue (bucket w') = rest) /\
  (remaining (refilled w) <= 0 ->
   invoked w' = invoked w /\ in_flight w' = in_flight w /\
   _queue (bucket w') = _queue (bucket w) /\
   (reaches_quota_check force w = true ->
    remaining (bucket w') = remaining (refilled w))).
Proof.
  intros w'. subst w'.
  destruct (reaches_quota_check force w) eqn:Hr.
  - destruct (reaches_cases _ _ Hr) as (func & rest & Hq & Hg).
    destruct (Z_le_gt_dec (remaining (refilled w)) 0) as [Hle|Hgt].
    + rewrite check_exhausted; [|done..]. split; [intros H; by destruct H|].
      intros _. do 2 (split; [done|]). split; [|by intros _].
      apply window_refill_frame.
    + rewrite (check_released _ _ _ _ Hq Hg); [|lia]. split; [|intros; lia].
      intros _. split; [lia|]. split; [done|]. by exists func, rest.
  - destruct (check_early_return _ _ Hr) as (Hi & Hf & Hq & _).
    split; [intros H; by destruct H|]. intros _. by do 3 (split; [done|]).
Qed.

Lemma no_release_without_quota_witness :
  let w := set_bucket (mkBucket [4; 5]%nat 0 3 (PBool false) (-2) 2000)
                      (fresh_world 3 (mkLatencyRef 20) 1000) in
  remaining (refilled w) <= 0 /\
  invoked (check false w) = invoked w /\
  remaining (bucket (check false w)) = -2.
Proof.
  cbn zeta. split; [by vm_compute|].
  pose proof (no_release_without_quota false
    (set_bucket (mkBucket [4; 5]%nat 0 3 (PBool false) (-2) 2000)
                (fresh_world 3 (mkLatencyRef 20) 1000))) as [_ H].
  destruct H as (H1 & _ & _ & H2); [by vm_compute|].
  split; [exact H1|]. by apply H2.
Defined.

(** C7.  If the queue is [func :: rest], the evaluation is not stopped by
    the guard ([processing] is falsy, or the call is forced) and
    [remaining] is positive after the refill step, then [check] itself
    removes [func] from the queue and invokes it: on return [func] is in
    flight, [processing] is [true], [remaining] has been decremented, and
    no timer has been armed or cleared and the clock has not moved. *)
Theorem release_is_synchronous (force : bool) (w : world)
        (func : work) (rest : list work) :
  _queue (bucket w) = func :: rest ->
  force = true \/ truthy (processing (bucket w)) = false ->
  0 < remaining (refilled w) ->
  let w' := check force w in
  invoked w' = invoked w ++ [func] /\
  in_flight w' = func :: in_flight w /\
  _queue (bucket w') = rest /\
  processing (bucket w') = PBool true /\
  remaining (bucket w') = remaining (refilled w) - 1 /\
  timers w' = timers w /\ next_handle w' = next_handle w /\
  clock w' = clock w.
Proof.
  intros Hq Hg Hpos w'. subst w'.
  rewrite (check_released _ _ _ _ Hq); [by repeat split| |done].
  destruct Hg as [->| ->]; [by rewrite andb_false_r|done].
Qed.

Lemma release_is_synchronous_witness :
  let w := set_bucket (mkBucket [4; 5]%nat 0 3 (PBool false) 1 2000)
                      (fresh_world 3 (mkLatencyRef 20) 1000) in
  _queue (bucket w) = [4; 5]%nat /\
  truthy (processing (bucket w)) = false /\
  0 < remaining (refilled w) /\
  invoked (check false w) = [4%nat] /\
  _queue (bucket (check false w)) = [5%nat] /\
  timers (check false w) = ∅.
Proof.
  cbn zeta. split; [done|]. split; [done|]. split; [by vm_compute|].
  pose proof (release_is_synchronous false
    (set_bucket (mkBucket [4; 5]%nat 0 3 (PBool false) 1 2000)
                (fresh_world 3 (mkLatencyRef 20) 1000)) 4%nat [5%nat]
    eq_refl (or_intror eq_refl) ltac:(by vm_compute))
    as (H1 & _ & H2 & _ & _ & H3 & _).
  exact (conj H1 (conj H2 H3)).
Defined.

(** C4.  If an evaluation gets past the early returns (so the queue is not
    empty) and finds [remaining <= 0] after the refill step, then it
    invokes nothing and leaves the queue as it is; it arms one timer, with
    delay [max(0, reset - now + offset) + 1] where [reset] is the value the
    refill step left, and stores its handle in [processing].  That timer
    does nothing before its delay has elapsed; when it fires it is
    consumed, [processing] is set to [false] and [check(true)] runs from
    its first line. *)
Theorem exhaustion_path (force : bool) (w : world) :
  reaches_quota_check force w = true ->
  remaining (refilled w) <= 0 ->
  let now := clock w in
  let offset := latency (latencyRef w) in
  let d := Z.max 0 (reset (refilled w) - now + offset) + 1 in
  let h := next_handle w in
  let w' := check force w in
  (invoked w' = invoked w /\ in_flight w' = in_flight w /\
   _queue (bucket w') = _queue (bucket w) /\
   remaining (bucket w') = remaining (refilled w)) /\
  (processing (bucket w') = PTimeout h /\
   truthy (processing (bucket w')) = true) /\
  (timers w' = <[h := mkTimer now d]> (timers w) /\
   next_handle w' = S h /\
   (timers w !! h = None -> size (timers w') = S (size (timers w)))) /\
  forall w2,
    timers w2 !! h = Some (mkTimer now d) ->
    (clock w2 < now + d -> step (ETimeout h) w2 = w2) /\
    (now + d <= clock w2 ->
     step (ETimeout h) w2
     = check true (set_bucket (set_processing (PBool false) (bucket w2))
                              (clearTimeout h w2)) /\
     timers (clearTimeout h w2) !! h = None).
Proof.
  intros Hr Hle now offset d h w'. subst w'.
  rewrite check_exhausted; [|done..].
  split; [|split; [by repeat split|split]].
  - do 2 (split; [done|]). split; [|done]. apply window_refill_frame.
  - split; [done|]. split; [done|]. intros Hfresh. simpl.
    by apply map_size_insert_None.
  - intros w2 Ht. simpl. unfold fire. rewrite Ht. unfold due. simpl.
    split.
    + intros Hlt. apply Z.leb_gt in Hlt. by rewrite Hlt.
    + intros Hge. apply Z.leb_le in Hge. rewrite Hge. split; [done|].
      apply lookup_delete_eq.
Qed.

Lemma exhaustion_path_witness :
  let w := set_bucket (mkBucket [4; 5]%nat 0 3 (PBool false) 0 2000)
                      (fresh_world 3 (mkLatencyRef 20) 1000) in
  reaches_quota_check false w = true /\
  remaining (refilled w) <= 0 /\
  processing (bucket (check false w)) = PTimeout 0 /\
  timers (check false w) = <[0%nat := mkTimer 1000 1021]> ∅.
Proof.
  cbn zeta. split; [done|]. split; [by vm_compute|].
  pose proof (exhaustion_path false
    (set_bucket (mkBucket [4; 5]%nat 0 3 (PBool false) 0 2000)
                (fresh_world 3 (mkLatencyRef 20) 1000))
    eq_refl ltac:(by vm_compute)) as (_ & [H1 _] & [H2 _] & _).
  exact (conj H1 H2).
Defined.

(** ** Frame *)

Lemma check_frame force w :
  limit (bucket (check force w)) = limit (bucket w) /\
  latencyRef (check force w) = latencyRef w.
Proof.
  unfold check.
  destruct (_queue (bucket w)) as [|func rest].
  - by destruct (processing (bucket w)) as [[]|].
  - destruct (truthy _ && negb force); [done|]. cbn zeta.
    destruct (_ <=? 0); simpl; split; try done; apply window_refill_frame.
Qed.

Lemma queue_frame func priority w :
  limit (bucket (queue func priority w)) = limit (bucket w) /\
  latencyRef (queue func priority w) = latencyRef w.
Proof.
  unfold queue. cbn zeta.
  by rewrite !(proj1 (check_frame _ _)), !(proj2 (check_frame _ _)).
Qed.

Lemma timer_cb_frame w :
  limit (bucket (timer_cb w)) = limit (bucket w) /\
  latencyRef (timer_cb w) = latencyRef w.
Proof.
  unfold timer_cb.
  by rewrite !(proj1 (check_frame _ _)), !(proj2 (check_frame _ _)).
Qed.

Lemma completion_cb_frame w :
  limit (bucket (completion_cb w)) = limit (bucket w) /\
  latencyRef (completion_cb w) = latencyRef w.
Proof.
  unfold completion_cb. destruct (_queue (bucket w)); [done|].
  apply check_frame.
Qed.

Lemma fire_frame h w :
  limit (bucket (fire h w)) = limit (bucket w) /\
  latencyRef (fire h w) = latencyRef w.
Proof.
  unfold fire. destruct (timers w !! h); [|done].
  destruct (_ <=? _); [|done].
  by rewrite !(proj1 (timer_cb_frame _)), !(proj2 (timer_cb_frame _)).
Qed.

(** C10.  None of the bucket's own code writes [limit] or the shared
    latency: [check], [queue], the timer closure (also when fired by the
    runtime) and the completion closure all return with the [limit] and the
    latency object they found.  Hence, along any execution, [limit] and
    [latencyRef.latency] hold the value the external layer wrote last, or
    their initial value if it wrote none. *)
Theorem limit_and_latency_frame :
  (forall force w,
      limit (bucket (check force w)) = limit (bucket w) /\
      latencyRef (check force w) = latencyRef w) /\
  (forall func priority w,
      limit (bucket (queue func priority w)) = limit (bucket w) /\
      latencyRef (queue func priority w) = latencyRef w) /\
  (forall h w,
      limit (bucket (timer_cb w)) = limit (bucket w) /\
      latencyRef (timer_cb w) = latencyRef w /\
      limit (bucket (step (ETimeout h) w)) = limit (bucket w) /\
      latencyRef (step (ETimeout h) w) = latencyRef w) /\
  (forall func w,
      limit (bucket (completion_cb w)) = limit (bucket w) /\
      latencyRef (completion_cb w) = latencyRef w /\
      limit (bucket (step (EDone func) w)) = limit (bucket w) /\
      latencyRef (step (EDone func) w) = latencyRef w) /\
  (forall tr w,
      limit (bucket (run tr w)) = written_limit tr (limit (bucket w)) /\
      latency (latencyRef (run tr w))
      = written_latency tr (latency (latencyRef w))).
Proof.
  split; [apply check_frame|]. split; [apply queue_frame|].
  split; [|split].
  - intros h w. pose proof (timer_cb_frame w) as [? ?].
    pose proof (fire_frame h w) as [? ?]. by repeat split.
  - intros func w. pose proof (completion_cb_frame w) as [? ?].
    pose proof (completion_cb_frame (completed func w)) as [? ?].
    by repeat split.
  - induction tr as [|e tr IH]; intros w; [done|].
    simpl run. destruct (IH (step e w)) as [-> ->].
    destruct e as [func priority|func|h|d|v|v|v|v]; simpl step;
      simpl written_limit; simpl written_latency;
      rewrite ?(proj1 (queue_frame _ _ _)), ?(proj2 (queue_frame _ _ _)),
        ?(proj1 (completion_cb_frame _)), ?(proj2 (completion_cb_frame _)),
        ?(proj1 (fire_frame _ _)), ?(proj2 (fire_frame _ _)); done.
Qed.

(** ** One function in flight *)

Lemma check_from_rest force w :
  in_flight w = [] -> timers w = ∅ -> one_at_a_time (check force w).
Proof.
  intros Hf Ht. unfold check.
  destruct (_queue (bucket w)) as [|func rest].
  - unfold one_at_a_time.
    destruct (processing (bucket w)) as [[]|h]; simpl; rewrite Hf, ?Ht;
      left; [done|done|apply delete_empty].
  - destruct (truthy _ && negb force).
    { unfold one_at_a_time. rewrite Hf. by left. }
    cbn zeta. destruct (_ <=? 0); unfold one_at_a_time; simpl.
    + rewrite Hf, Ht. right. eexists _, _. split; [apply insert_empty|done].
    + by rewrite Hf.
Qed.

Lemma check_while_busy w :
  one_at_a_time w -> _queue (bucket w) <> [] ->
  one_at_a_time (check false w).
Proof.
  intros Hi Hq.
  destruct (truthy (processing (bucket w))) eqn:Hp.
  { by rewrite check_skipped. }
  unfold one_at_a_time in Hi.
  destruct (in_flight w) as [|x [|y l]] eqn:Hf; [| |done].
  - destruct Hi as [Ht|(h & t & _ & Hh)].
    + by apply check_from_rest.
    + by rewrite Hh in Hp.
  - destruct Hi as [Hb _]. by rewrite Hb in Hp.
Qed.

Lemma remove_one_head func l : remove_one func (func :: l) = l.
Proof. simpl. by rewrite decide_True. Qed.

Lemma step_one_at_a_time e w :
  one_at_a_time w -> event_ok e w = true -> one_at_a_time (step e w).
Proof.
  intros Hi Hok.
  destruct e as [func priority|func|h|d|v|v|v|v]; simpl step; try done.
  - unfold queue. cbn zeta. apply check_while_busy; [done|]. simpl.
    destruct priority; [done|]. by destruct (_queue (bucket w)).
  - simpl in Hok. apply bool_decide_eq_true in Hok.
    unfold one_at_a_time in Hi.
    destruct (in_flight w) as [|x [|y l]] eqn:Hf; [| |done].
    + by apply elem_of_nil in Hok.
    + apply list_elem_of_singleton in Hok as ->.
      destruct Hi as [_ Ht]. unfold completion_cb.
      destruct (_queue (bucket (completed x w))) eqn:Hq.
      * unfold one_at_a_time. simpl. rewrite Hf, remove_one_head.
        by left.
      * apply check_from_rest; simpl; [|done].
        by rewrite Hf, remove_one_head.
  - unfold fire. destruct (timers w !! h) as [t|] eqn:Hh; [|done].
    destruct (due t <=? clock w); [|done].
    unfold one_at_a_time in Hi.
    destruct (in_flight w) as [|x [|y l]] eqn:Hf; [| |done].
    + destruct Hi as [Ht|(h' & t' & Ht & _)].
      { rewrite Ht in Hh. by rewrite lookup_empty in Hh. }
      rewrite Ht in Hh. apply lookup_singleton_Some in Hh as [-> ->].
      unfold timer_cb. apply check_from_rest; simpl; [done|].
      rewrite Ht. apply delete_singleton_eq.
    + destruct Hi as [_ Ht]. rewrite Ht in Hh. by rewrite lookup_empty in Hh.
Qed.

Lemma run_one_at_a_time tr w :
  one_at_a_time w -> well_behaved tr w = true -> one_at_a_time (run tr w).
Proof.
  revert w. induction tr as [|e tr IH]; intros w Hi Hwb; [done|].
  simpl in Hwb. apply andb_true_iff in Hwb as [Hok Hwb].
  simpl. apply IH; [|done]. by apply step_one_at_a_time.
Qed.

Lemma fresh_world_one_at_a_time limit0 r t :
  one_at_a_time (fresh_world limit0 r t).
Proof. by left. Qed.

(** C1.  Start from a newly constructed bucket and let any sequence of
    events happen: [queue] calls with or without priority, completion
    signals, timer firings, time passing, writes of the external layer to
    [limit], [remaining], [reset] and the latency.  As long as completion
    closures are called by functions in flight only (each invoked function
    signals completion at most once, the contract of section 4.2), at most
    one function is in flight after every event; and an event during which
    the bucket invokes a function either found nothing in flight or is
    the completion signal of the one function that was. *)
Theorem at_most_one_in_flight (limit0 : Z) (r : LatencyRef) (t : Z)
        (tr : list event) :
  well_behaved tr (fresh_world limit0 r t) = true ->
  let w := run tr (fresh_world limit0 r t) in
  (length (in_flight w) <= 1)%nat /\
  forall e,
    event_ok e w = true ->
    invoked (step e w) <> invoked w ->
    in_flight w = [] \/ exists func, e = EDone func /\ in_flight w = [func].
Proof.
  intros Hwb w.
  assert (Hi : one_at_a_time w).
  { apply run_one_at_a_time; [apply fresh_world_one_at_a_time|done]. }
  clearbody w. unfold one_at_a_time in Hi.
  destruct (in_flight w) as [|x [|y l]] eqn:Hf; [| |done].
  { split; [simpl; lia|]. intros. by left. }
  destruct Hi as [Hp Ht]. split; [simpl; lia|].
  intros e Hok Hinv.
  destruct e as [func priority|func|h|d|v|v|v|v]; simpl in Hinv; try done.
  - exfalso. apply Hinv. unfold queue. cbn zeta.
    rewrite check_skipped; [done| |by simpl; rewrite Hp].
    simpl. destruct priority; [done|]. by destruct (_queue (bucket w)).
  - right. exists func. split; [done|].
    simpl in Hok. apply bool_decide_eq_true in Hok.
    rewrite Hf in Hok. by apply list_elem_of_singleton in Hok as ->.
  - exfalso. apply Hinv. unfold fire. by rewrite Ht, lookup_empty.
Qed.

Lemma at_most_one_in_flight_witness :
  let tr := [EQueue 1 false; EQueue 2 true; EQueue 3 false; ETick 5;
             EDone 1; ESetRemaining 0; ESetReset 1500; EDone 2;
             ETick 600; ETimeout 0; EDone 3]%nat in
  let w0 := fresh_world 2 (mkLatencyRef 25) 1000 in
  well_behaved tr w0 = true /\
  (length (in_flight (run tr w0)) <= 1)%nat.
Proof.
  cbn zeta. split; [by vm_compute|].
  refine (proj1 (at_most_one_in_flight 2 (mkLatencyRef 25) 1000 _ _)).
  by vm_compute.
Defined.

(** The contract on completion signals is needed: a function that calls
    its completion closure twice gets two functions in flight. *)
Example second_completion_signal_releases_twice :
  let w := run [EQueue 1 false; EQueue 2 false; EQueue 3 false;
                EDone 1; EDone 1]%nat
               (fresh_world 5 (mkLatencyRef 0) 1000) in
  in_flight w = [3; 2]%nat.
Proof. by vm_compute. Qed.

(** ** Release order *)

Lemma release_order_check force w :
  release_order (check force w) = release_order w.
Proof.
  unfold release_order, check.
  destruct (_queue (bucket w)) as [|func rest] eqn:Hq.
  - destruct (processing (bucket w)) as [[]|]; simpl; by rewrite ?Hq.
  - destruct (truthy _ && negb force); [by rewrite Hq|]. cbn zeta.
    destruct (_ <=? 0); simpl.
    + by rewrite (proj1 (window_refill_frame _ _ _)), Hq.
    + by rewrite <- app_assoc.
Qed.

Lemma release_order_queue func priority w :
  release_order (queue func priority w)
  = if priority then invoked w ++ func :: _queue (bucket w)
    else release_order w ++ [func].
Proof.
  unfold queue. cbn zeta. rewrite release_order_check.
  unfold release_order. destruct priority; simpl; [done|].
  by rewrite app_assoc.
Qed.

Lemma release_order_step e w :
  release_order w `sublist_of` release_order (step e w).
Proof.
  destruct e as [func priority|func|h|d|v|v|v|v]; simpl step; try done.
  - rewrite release_order_queue. destruct priority.
    + apply sublist_app; [done|]. by apply sublist_cons.
    + by apply sublist_inserts_r.
  - unfold completion_cb.
    destruct (_queue (bucket (completed func w))); [done|].
    by rewrite release_order_check.
  - unfold fire. destruct (timers w !! h); [|done].
    destruct (_ <=? _); [|done].
    unfold timer_cb. by rewrite release_order_check.
Qed.

Lemma release_order_run tr w :
  release_order w `sublist_of` release_order (run tr w).
Proof.
  revert w. induction tr as [|e tr IH]; intros w; [done|].
  simpl. etrans; [apply release_order_step|apply IH].
Qed.

Lemma run_app tr1 tr2 w : run (tr1 ++ tr2) w = run tr2 (run tr1 w).
Proof. revert w. induction tr1 as [|e tr1 IH]; intros w; [done|]. apply IH. Qed.

(** With every function handed in once, an order fixed in
    [release_order] is the order of invocation. *)
Lemma release_order_decides a b w :
  NoDup (release_order w) ->
  [a; b] `sublist_of` release_order w ->
  b ∈ invoked w ->
  released_before a b w.
Proof.
  unfold release_order, released_before. intros Hnd Hsub Hb.
  apply NoDup_app in Hnd as (_ & Hdisj & _).
  apply sublist_app_r in Hsub as (l1 & l2 & Heq & H1 & H2).
  assert (Hl2 : forall x, x ∈ l2 -> x <> b).
  { intros x Hx ->. apply (Hdisj b Hb). by eapply elem_of_sublist. }
  destruct l1 as [|x1 [|x2 [|x3 l1]]]; simplify_eq/=; [| |done].
  - exfalso. eapply (Hl2 b); [|done]. set_solver.
  - exfalso. eapply (Hl2 b); [|done]. set_solver.
Qed.

(** C6.  Suppose the functions handed to the bucket are pairwise distinct,
    and consider any execution from any state.
    (1) Of two functions queued without priority, the one queued first is
        invoked first: once the second has been invoked, the first had
        been before it.
    (2) A function queued with priority is invoked before every function
        that was in the queue when it arrived, however many there were.
    (3) Of two functions queued with priority, the first still in the queue
        when the second arrives, the second is invoked first. *)
Theorem release_order_fifo_with_priority_lifo (w0 : world) :
  (forall tr1 tr2 tr3 a b,
      let w := run (tr1 ++ EQueue a false :: tr2 ++ EQueue b false :: tr3) w0 in
      NoDup (release_order w) ->
      b ∈ invoked w ->
      released_before a b w) /\
  (forall tr1 tr2 p n,
      let w := run (tr1 ++ EQueue p true :: tr2) w0 in
      NoDup (release_order w) ->
      n ∈ _queue (bucket (run tr1 w0)) ->
      n ∈ invoked w ->
      released_before p n w) /\
  (forall tr1 tr2 tr3 p1 p2,
      let w := run (tr1 ++ EQueue p1 true :: tr2 ++ EQueue p2 true :: tr3) w0 in
      NoDup (release_order w) ->
      p1 ∈ _queue (bucket (run (tr1 ++ EQueue p1 true :: tr2) w0)) ->
      p1 ∈ invoked w ->
      released_before p2 p1 w).
Proof.
  assert (Hprio : forall tr1 tr2 p n,
      let w := run (tr1 ++ EQueue p true :: tr2) w0 in
      NoDup (release_order w) ->
      n ∈ _queue (bucket (run tr1 w0)) ->
      n ∈ invoked w ->
      released_before p n w).
  { intros tr1 tr2 p n w Hnd Hn Hinv.
    apply release_order_decides; [done| |done].
    subst w. rewrite run_app. simpl run.
    etrans; [|apply release_order_run].
    simpl step. rewrite release_order_queue.
    apply sublist_inserts_l, sublist_skip. by apply singleton_sublist_l. }
  split; [|split; [done|]].
  - intros tr1 tr2 tr3 a b w Hnd Hinv.
    apply release_order_decides; [done| |done].
    subst w. rewrite run_app. simpl run. rewrite run_app. simpl run.
    etrans; [|apply release_order_run].
    simpl step. rewrite (release_order_queue b false).
    apply (sublist_app [a] _ [b] [b]); [|done].
    etrans; [|apply release_order_run].
    rewrite release_order_queue.
    apply sublist_inserts_l. done.
  - intros tr1 tr2 tr3 p1 p2 w Hnd Hq Hinv. subst w.
    replace (tr1 ++ EQueue p1 true :: tr2 ++ EQueue p2 true :: tr3)
      with ((tr1 ++ EQueue p1 true :: tr2) ++ EQueue p2 true :: tr3) in *
      by (by rewrite <- app_assoc).
    by apply Hprio.
Qed.

Lemma release_order_fifo_with_priority_lifo_witness :
  let w0 := fresh_world 10 (mkLatencyRef 0) 1000 in
  let w1 := run ([EQueue 1 false] ++ EQueue 2 false ::
                 [EQueue 10 true] ++ EQueue 3 false ::
                 [EDone 1; EDone 10; EDone 2])%nat w0 in
  let w2 := run ([EQueue 1 false; EQueue 2 false; EQueue 3 false] ++
                 EQueue 10 true :: [EDone 1; EDone 10; EDone 2])%nat w0 in
  let w3 := run ([EQueue 1 false] ++ EQueue 10 true ::
                 [EQueue 2 false] ++ EQueue 11 true ::
                 [EDone 1; EDone 11])%nat w0 in
  (NoDup (release_order w1) /\ 3%nat ∈ invoked w1 /\
   released_before 2%nat 3%nat w1) /\
  (NoDup (release_order w2) /\
   3%nat ∈ _queue (bucket (run [EQueue 1 false; EQueue 2 false;
                                EQueue 3 false]%nat w0)) /\
   3%nat ∈ invoked w2 /\ released_before 10%nat 3%nat w2) /\
  (NoDup (release_order w3) /\
   10%nat ∈ _queue (bucket (run ([EQueue 1 false] ++ EQueue 10 true ::
                                 [EQueue 2 false])%nat w0)) /\
   10%nat ∈ invoked w3 /\ released_before 11%nat 10%nat w3).
Proof.
  cbn zeta.
  destruct (release_order_fifo_with_priority_lifo
              (fresh_world 10 (mkLatencyRef 0) 1000)) as (H1 & H2 & H3).
  split; [|split].
  - assert (Hnd : NoDup (release_order (run
        ([EQueue 1 false] ++ EQueue 2 false ::
         [EQueue 10 true] ++ EQueue 3 false ::
         [EDone 1; EDone 10; EDone 2])%nat
        (fresh_world 10 (mkLatencyRef 0) 1000))))
      by decide_by_evaluation.
    assert (Hin : 3%nat ∈ invoked (run
        ([EQueue 1 false] ++ EQueue 2 false ::
         [EQueue 10 true] ++ EQueue 3 false ::
         [EDone 1; EDone 10; EDone 2])%nat
        (fresh_world 10 (mkLatencyRef 0) 1000)))
      by decide_by_evaluation.
    split; [exact Hnd|]. split; [exact Hin|].
    exact (H1 _ _ _ _ _ Hnd Hin).
  - assert (Hnd : NoDup (release_order (run
        ([EQueue 1 false; EQueue 2 false; EQueue 3 false] ++
         EQueue 10 true :: [EDone 1; EDone 10; EDone 2])%nat
        (fresh_world 10 (mkLatencyRef 0) 1000))))
      by decide_by_evaluation.
    assert (Hq : 3%nat ∈ _queue (bucket (run
        [EQueue 1 false; EQueue 2 false; EQueue 3 false]%nat
        (fresh_world 10 (mkLatencyRef 0) 1000))))
      by decide_by_evaluation.
    assert (Hin : 3%nat ∈ invoked (run
        ([EQueue 1 false; EQueue 2 false; EQueue 3 false] ++
         EQueue 10 true :: [EDone 1; EDone 10; EDone 2])%nat
        (fresh_world 10 (mkLatencyRef 0) 1000)))
      by decide_by_evaluation.
    split; [exact Hnd|]. split; [exact Hq|]. split; [exact Hin|].
    exact (H2 _ _ _ _ Hnd Hq Hin).
  - assert (Hnd : NoDup (release_order (run
        ([EQueue 1 false] ++ EQueue 10 true ::
         [EQueue 2 false] ++ EQueue 11 true :: [EDone 1; EDone 11])%nat
        (fresh_world 10 (mkLatencyRef 0) 1000))))
      by decide_by_evaluation.
    assert (Hq : 10%nat ∈ _queue (bucket (run
        ([EQueue 1 false] ++ EQueue 10 true :: [EQueue 2 false])%nat
        (fresh_world 10 (mkLatencyRef 0) 1000))))
      by decide_by_evaluation.
    assert (Hin : 10%nat ∈ invoked (run
        ([EQueue 1 false] ++ EQueue 10 true ::
         [EQueue 2 false] ++ EQueue 11 true :: [EDone 1; EDone 11])%nat
        (fresh_world 10 (mkLatencyRef 0) 1000)))
      by decide_by_evaluation.
    split; [exact Hnd|]. split; [exact Hq|]. split; [exact Hin|].
    exact (H3 _ _ _ _ _ Hnd Hq Hin).
Defined.

(** ** The exhausted-bucket scenario *)

(** C5, as the spec has it, fails: in the scenario the timer is armed with
    a delay of 1051 ms, not of about 950 ms; 950 ms later (or 1050 ms
    later) the timer has not fired, [remaining] is still 0 and the
    function is still queued; and even an evaluation forced at that
    instant would restore nothing and release nothing, because [reset] is
    not yet below [now - offset]. *)
Lemma wake_up_at_950ms_counterexample :
  let w1 := check false exhausted_scenario in
  timers w1 = {[0%nat := mkTimer 10000 1051]} /\
  ~ wake_up_releases_after 950 exhausted_scenario /\
  ~ wake_up_releases_after 1050 exhausted_scenario /\
  (let w2 := step (ETimeout 0) (step (ETick 950) w1) in
   timers w2 = timers w1 /\ invoked w2 = [] /\
   remaining (bucket w2) = 0 /\ _queue (bucket w2) = [7%nat]) /\
  (let w3 := timer_cb (clearTimeout 0 (step (ETick 950) w1)) in
   invoked w3 = [] /\ remaining (bucket w3) = 0 /\
   _queue (bucket w3) = [7%nat]).
Proof.
  cbn zeta. split; [by vm_compute|].
  split; [intros H; apply H; by vm_compute|].
  split; [intros H; apply H; by vm_compute|].
  split; by vm_compute.
Qed.

(** C5, amended.  With [remaining = 0], [reset = now + 1000], a latency of
    50 ms, a positive [limit], a non-empty queue and nothing in progress,
    the evaluation invokes nothing and arms a timer with delay
    [max(0, 1000 + 50) + 1 = 1051] ms.  Fired less than 1051 ms later the
    timer does nothing.  When it fires, 1051 ms later or more, the fields
    and the latency being as the evaluation left them, [reset] is below
    [now - offset], so [remaining] is restored to [limit] and the head of
    the queue is invoked, leaving [remaining = limit - 1]. *)
Theorem wake_up_after_1051ms (w : world) (now limit0 : Z)
        (func : work) (rest : list work) :
  clock w = now -> 0 <= now ->
  latency (latencyRef w) = 50 ->
  remaining (bucket w) = 0 ->
  reset (bucket w) = now + 1000 ->
  limit (bucket w) = limit0 -> 0 < limit0 ->
  _queue (bucket w) = func :: rest ->
  truthy (processing (bucket w)) = false ->
  let h := next_handle w in
  let w1 := check false w in
  (timers w1 = <[h := mkTimer now 1051]> (timers w) /\
   processing (bucket w1) = PTimeout h /\
   invoked w1 = invoked w /\ remaining (bucket w1) = 0 /\
   _queue (bucket w1) = func :: rest) /\
  forall ms,
    let w2 := step (ETimeout h) (step (ETick ms) w1) in
    (ms < 1051 -> w2 = step (ETick ms) w1) /\
    (1051 <= ms ->
     invoked w2 = invoked w ++ [func] /\
     in_flight w2 = func :: in_flight w /\
     _queue (bucket w2) = rest /\
     reset (bucket w2) = now + ms - 50 /\
     remaining (bucket w2) = limit0 - 1 /\
     processing (bucket w2) = PBool true /\
     timers w2 = delete h (timers w1)).
Proof.
  intros Hc Hnow Hlat Hrem Hrst Hlim Hpos Hq Hp h w1.
  assert (Hre : refilled w = bucket w).
  { unfold refilled. apply window_refill_current; lia. }
  assert (Hw1 : w1 = set_bucket
                       (set_processing (PTimeout h)
                          (set_last now (bucket w)))
                       (snd (setTimeout 1051 w))).
  { subst w1. rewrite check_exhausted.
    - cbn zeta. rewrite Hre, Hc, Hlat. unfold wake_delay. simpl.
      rewrite Hrst. replace (now + 1000 - now + 50) with 1050 by lia.
      done.
    - unfold reaches_quota_check. by rewrite Hq, Hp.
    - rewrite Hre. lia. }
  split.
  { rewrite Hw1. simpl. by rewrite Hc, Hrem, Hq. }
  intros ms w2. subst w2. rewrite Hw1. simpl step. unfold fire. simpl.
  rewrite lookup_insert_eq. unfold due. simpl. rewrite Hc. split.
  - intros Hms. replace (now + 1051 <=? now + ms) with false; [done|].
    symmetry. apply Z.leb_gt. lia.
  - intros Hms. replace (now + 1051 <=? now + ms) with true.
    2:{ symmetry. apply Z.leb_le. lia. }
    unfold timer_cb.
    match goal with |- context [check true ?x] => set (w3 := x) end.
    assert (Hre3 : refilled w3
                   = set_remaining limit0
                       (set_reset (now + ms - 50) (bucket w3))).
    { unfold refilled. rewrite window_refill_elapsed.
      - subst w3. simpl. by rewrite Hlim, Hlat.
      - right. subst w3. simpl. rewrite Hrst, Hlat. lia. }
    rewrite (check_released true w3 func rest).
    + cbn zeta. rewrite Hre3. subst w3. by repeat split.
    + subst w3. simpl. done.
    + done.
    + rewrite Hre3. simpl. lia.
Qed.

Lemma wake_up_after_1051ms_witness :
  clock exhausted_scenario = 10000 /\ 0 <= 10000 /\
  latency (latencyRef exhausted_scenario) = 50 /\
  remaining (bucket exhausted_scenario) = 0 /\
  reset (bucket exhausted_scenario) = 10000 + 1000 /\
  limit (bucket exhausted_scenario) = 5 /\ 0 < 5 /\
  _queue (bucket exhausted_scenario) = [7%nat] /\
  truthy (processing (bucket exhausted_scenario)) = false /\
  let w2 := step (ETimeout 0) (step (ETick 1051)
                                    (check false exhausted_scenario)) in
  invoked w2 = [7%nat] /\ remaining (bucket w2) = 4.
Proof.
  do 9 (split; [by vm_compute|]).
  destruct (wake_up_after_1051ms exhausted_scenario 10000 5 7%nat []
              eq_refl ltac:(lia) eq_refl eq_refl eq_refl eq_refl
              ltac:(lia) eq_refl eq_refl) as [_ H].
  destruct (H 1051) as [_ H2].
  destruct H2 as (H3 & _ & _ & _ & H4 & _); [lia|].
  exact (conj H3 H4).
Defined.

(** * Further properties of the drain loop *)

(** ** The drain state *)

Lemma check_settles force w :
  in_flight w = [] -> timers w = ∅ ->
  force = true \/ processing (bucket w) = PBool false ->
  drain_state_ok (check force w).
Proof.
  intros Hf Ht Hg. unfold check.
  destruct (_queue (bucket w)) as [|func rest] eqn:Hq.
  - unfold drain_state_ok.
    destruct (processing (bucket w)) as [[]|h] eqn:Hp; simpl;
      rewrite ?Hp, ?Hf, ?Ht, ?Hq, ?delete_empty; done.
  - replace (truthy (processing (bucket w)) && negb force) with false.
    2:{ destruct Hg as [->| ->]; [by rewrite andb_false_r|done]. }
    cbn zeta. destruct (_ <=? 0); unfold drain_state_ok; simpl.
    + rewrite Hf, Ht. split; [done|]. split.
      * eexists. apply insert_empty.
      * rewrite (proj1 (window_refill_frame _ _ _)), Hq. done.
    + rewrite Hf, Ht. split; [by eexists|done].
Qed.

Lemma step_drain_state_ok e w :
  drain_state_ok w -> event_ok e w = true -> drain_state_ok (step e w).
Proof.
  intros Hi Hok. unfold drain_state_ok in Hi.
  destruct e as [func priority|func|h|d|v|v|v|v]; simpl step; try done.
  - unfold queue. cbn zeta.
    set (q := if priority then _ else _).
    assert (Hq : q <> []).
    { subst q. destruct priority; [done|]. by destruct (_queue (bucket w)). }
    destruct (processing (bucket w)) as [[]|h] eqn:Hp.
    + rewrite check_skipped; [|done|by simpl; rewrite Hp].
      unfold drain_state_ok. simpl. by rewrite Hp.
    + destruct Hi as (Hf & Ht & _). apply check_settles; [done|done|].
      right. simpl. done.
    + rewrite check_skipped; [|done|by simpl; rewrite Hp].
      unfold drain_state_ok. simpl. rewrite Hp.
      destruct Hi as (Hf & Ht & _). done.
  - simpl in Hok. apply bool_decide_eq_true in Hok.
    destruct (processing (bucket w)) as [[]|h] eqn:Hp.
    + destruct Hi as [[x Hf] Ht]. rewrite Hf in Hok.
      apply list_elem_of_singleton in Hok as ->.
      unfold completion_cb.
      destruct (_queue (bucket (completed x w))) eqn:Hq.
      * unfold drain_state_ok. simpl. rewrite Hf, remove_one_head.
        simpl in Hq. done.
      * apply check_settles; simpl; [by rewrite Hf, remove_one_head|done|].
        by left.
    + destruct Hi as (Hf & _). rewrite Hf in Hok.
      by apply elem_of_nil in Hok.
    + destruct Hi as (Hf & _). rewrite Hf in Hok.
      by apply elem_of_nil in Hok.
  - unfold fire. destruct (timers w !! h) as [t|] eqn:Hh; [|done].
    destruct (due t <=? clock w); [|done].
    destruct (processing (bucket w)) as [[]|h'] eqn:Hp.
    + destruct Hi as [_ Ht]. rewrite Ht in Hh. by rewrite lookup_empty in Hh.
    + destruct Hi as (_ & Ht & _). rewrite Ht in Hh.
      by rewrite lookup_empty in Hh.
    + destruct Hi as (Hf & [t' Ht] & _). rewrite Ht in Hh.
      apply lookup_singleton_Some in Hh as [-> ->].
      unfold timer_cb. apply check_settles; simpl; [done| |by left].
      rewrite Ht. apply delete_singleton_eq.
Qed.

Lemma run_drain_state_ok tr w :
  drain_state_ok w -> well_behaved tr w = true -> drain_state_ok (run tr w).
Proof.
  revert w. induction tr as [|e tr IH]; intros w Hi Hwb; [done|].
  simpl in Hwb. apply andb_true_iff in Hwb as [Hok Hwb].
  simpl. apply IH; [|done]. by apply step_drain_state_ok.
Qed.

(** X1.  Along every execution from a new bucket in which completion is
    signalled by functions in flight only, [processing] tells the
    situation exactly: [false] means nothing in flight, no timer armed and
    an empty queue; [true] means one function in flight and no timer
    armed; a [Timeout] means that very timer is the one armed, nothing is
    in flight and the queue is not empty.  In particular a function never
    sits in the queue of an idle bucket. *)
Theorem processing_tells_the_drain_state (limit0 : Z) (r : LatencyRef)
        (t : Z) (tr : list event) :
  well_behaved tr (fresh_world limit0 r t) = true ->
  let w := run tr (fresh_world limit0 r t) in
  drain_state_ok w /\
  (_queue (bucket w) <> [] ->
   (exists func, in_flight w = [func]) \/
   (exists h tm, processing (bucket w) = PTimeout h /\
                 timers w !! h = Some tm)).
Proof.
  intros Hwb w.
  assert (Hi : drain_state_ok w).
  { apply run_drain_state_ok; [|done]. by repeat split. }
  split; [done|]. intros Hq. unfold drain_state_ok in Hi.
  destruct (processing (bucket w)) as [[]|h] eqn:Hp.
  - left. apply Hi.
  - by destruct Hi as (_ & _ & Hq').
  - right. destruct Hi as (_ & [tm Ht] & _). exists h, tm.
    split; [done|]. rewrite Ht. apply lookup_singleton_eq.
Qed.

Lemma processing_tells_the_drain_state_witness :
  let tr := [EQueue 1 false; EQueue 2 true; EDone 1; EQueue 3 false;
             EDone 2; ETick 40; ETimeout 0]%nat in
  let w0 := fresh_world 2 (mkLatencyRef 25) 1000 in
  well_behaved tr w0 = true /\ drain_state_ok (run tr w0).
Proof.
  cbn zeta. split; [by vm_compute|].
  refine (proj1 (processing_tells_the_drain_state 2 (mkLatencyRef 25)
                   1000 _ _)).
  by vm_compute.
Defined.

Lemma well_behaved_snoc tr e w :
  well_behaved (tr ++ [e]) w = true ->
  well_behaved tr w = true /\ event_ok e (run tr w) = true.
Proof.
  revert w. induction tr as [|e' tr IH]; intros w; simpl.
  - rewrite andb_true_r. done.
  - intros [H1 H2]%andb_true_iff. destruct (IH _ H2) as [H3 H4].
    by rewrite H1, H3.
Qed.

(** X2.  Along such an execution an armed timer is never cancelled: after
    any further event it is still armed, unless the event is its own
    firing, with its delay elapsed.  The [clearTimeout] of line 28 is
    never reached. *)
Theorem armed_timer_is_never_cancelled (limit0 : Z) (r : LatencyRef)
        (t : Z) (tr : list event) (e : event) (h : nat) (tm : Timer) :
  well_behaved (tr ++ [e]) (fresh_world limit0 r t) = true ->
  let w := run tr (fresh_world limit0 r t) in
  timers w !! h = Some tm ->
  timers (step e w) !! h = Some tm \/
  (e = ETimeout h /\ due tm <= clock w).
Proof.
  intros Hwb w Hh.
  apply well_behaved_snoc in Hwb as [Hwb1 Hok]. fold w in Hok.
  assert (Hi : drain_state_ok w).
  { apply run_drain_state_ok; [|done]. by repeat split. }
  clearbody w. unfold drain_state_ok in Hi.
  destruct (processing (bucket w)) as [[]|h'] eqn:Hp.
  - destruct Hi as [_ Ht]. rewrite Ht in Hh. by rewrite lookup_empty in Hh.
  - destruct Hi as (_ & Ht & _). rewrite Ht in Hh.
    by rewrite lookup_empty in Hh.
  - destruct Hi as (Hf & [t' Ht] & Hq).
    pose proof Hh as Hh'. rewrite Ht in Hh'.
    apply lookup_singleton_Some in Hh' as [E1 E2]. subst h' t'.
    destruct e as [func priority|func|h2|d|v|v|v|v]; simpl step;
      try (by left).
    + left. unfold queue. cbn zeta.
      rewrite check_skipped; [done| |by simpl; rewrite Hp].
      simpl. destruct priority; [done|]. by destruct (_queue (bucket w)).
    + simpl in Hok. apply bool_decide_eq_true in Hok. rewrite Hf in Hok.
      by apply elem_of_nil in Hok.
    + unfold fire. destruct (timers w !! h2) as [t2|] eqn:Hh2; [|by left].
      rewrite Ht in Hh2. apply lookup_singleton_Some in Hh2 as [E1 E2].
      subst h2 t2.
      destruct (due tm <=? clock w) eqn:Hd; [|by left].
      right. split; [done|]. by apply Z.leb_le.
Qed.

Lemma armed_timer_is_never_cancelled_witness :
  let tr := [EQueue 1 false; EQueue 2 false; EDone 1; EQueue 3 false;
             EDone 2]%nat in
  let w0 := fresh_world 2 (mkLatencyRef 25) 1000 in
  well_behaved (tr ++ [EQueue 4%nat true]) w0 = true /\
  timers (run tr w0) !! 0%nat = Some (mkTimer 1000 1) /\
  timers (step (EQueue 4%nat true) (run tr w0)) !! 0%nat
  = Some (mkTimer 1000 1).
Proof.
  cbn zeta. split; [by vm_compute|]. split; [by vm_compute|].
  destruct (armed_timer_is_never_cancelled 2 (mkLatencyRef 25) 1000
              [EQueue 1 false; EQueue 2 false; EDone 1; EQueue 3 false;
               EDone 2]%nat (EQueue 4%nat true) 0%nat (mkTimer 1000 1)
              ltac:(by vm_compute) ltac:(by vm_compute)) as [H|[H _]].
  - exact H.
  - discriminate H.
Defined.

(** ** The empty queue *)

(** X3.  Called with an empty queue, [check] invokes nothing, ends with
    [processing = false] and touches neither the queue nor [limit],
    [remaining], [reset] or [last], forced or not.  If [processing] held a
    timer, that timer is cleared, so that its later firing does nothing;
    otherwise no timer is touched.  A second call changes nothing more. *)
Theorem check_on_empty_queue (force : bool) (w : world) :
  _queue (bucket w) = [] ->
  let w' := check force w in
  (invoked w' = invoked w /\ in_flight w' = in_flight w /\
   clock w' = clock w /\ next_handle w' = next_handle w) /\
  bucket w' = set_processing (PBool false) (bucket w) /\
  (forall h, processing (bucket w) = PTimeout h ->
             timers w' = delete h (timers w) /\
             step (ETimeout h) w' = w') /\
  ((forall h, processing (bucket w) <> PTimeout h) ->
   timers w' = timers w) /\
  (forall force', check force' w' = w').
Proof.
  intros Hq w'. subst w'. unfold check. rewrite Hq.
  destruct (processing (bucket w)) as [[]|h] eqn:Hp; simpl.
  - split; [done|]. split; [done|]. split; [done|]. split; [done|].
    intros force'. unfold check. simpl. by rewrite Hq.
  - split; [done|]. split.
    { destruct w as [[] ]. simpl in *. by subst. }
    split; [done|]. split; [done|].
    intros force'. unfold check. by rewrite Hq, Hp.
  - split; [done|]. split; [done|]. split.
    + intros h' [= <-]. split; [done|].
      unfold fire. simpl. by rewrite lookup_delete_eq.
    + split; [intros H; by destruct (H h)|].
      intros force'. unfold check. simpl. by rewrite Hq.
Qed.

Lemma check_on_empty_queue_witness :
  let w := snd (setTimeout 30
             (set_bucket (mkBucket [] 5 3 (PTimeout 0) 0 2000)
                         (fresh_world 3 (mkLatencyRef 20) 1000))) in
  _queue (bucket w) = [] /\
  timers (check false w) = ∅ /\
  processing (bucket (check false w)) = PBool false.
Proof.
  cbn zeta. split; [done|].
  destruct (check_on_empty_queue false
              (snd (setTimeout 30
                 (set_bucket (mkBucket [] 5 3 (PTimeout 0) 0 2000)
                             (fresh_world 3 (mkLatencyRef 20) 1000))))
              eq_refl) as (_ & H1 & H2 & _).
  destruct (H2 0%nat eq_refl) as [H3 _].
  split.
  - rewrite H3. by vm_compute.
  - by rewrite H1.
Defined.

(** ** Nothing lost, nothing invoked twice *)

Lemma release_order_step_exact e w :
  release_order (step e w)
  = match e with
    | EQueue func true => invoked w ++ func :: _queue (bucket w)
    | EQueue func false => release_order w ++ [func]
    | _ => release_order w
    end.
Proof.
  destruct e as [func priority|func|h|d|v|v|v|v]; simpl step; try done.
  - rewrite release_order_queue. by destruct priority.
  - unfold completion_cb.
    destruct (_queue (bucket (completed func w))); [done|].
    by rewrite release_order_check.
  - unfold fire. destruct (timers w !! h); [|done].
    destruct (_ <=? _); [|done].
    unfold timer_cb. by rewrite release_order_check.
Qed.

(** X4.  Whatever happens, the functions invoked so far together with
    those still queued are, up to order, the functions that were there at
    the start and those passed to [queue] since, each as many times as it
    was passed: [queue] never refuses a function, none is dropped, none is
    invoked twice. *)
Theorem queued_functions_are_conserved (tr : list event) (w : world) :
  let w' := run tr w in
  invoked w' ++ _queue (bucket w')
    ≡ₚ (invoked w ++ _queue (bucket w)) ++ enqueued tr /\
  (length (invoked w') + length (_queue (bucket w'))
   = length (invoked w) + length (_queue (bucket w))
     + length (enqueued tr))%nat /\
  forall func, func ∈ enqueued tr ->
               func ∈ invoked w' \/ func ∈ _queue (bucket w').
Proof.
  cbn zeta.
  assert (H : release_order (run tr w) ≡ₚ release_order w ++ enqueued tr).
  { revert w. induction tr as [|e tr IH]; intros w; simpl run.
    - simpl. by rewrite app_nil_r.
    - rewrite IH, release_order_step_exact.
      destruct e as [func [] |func|h|d|v|v|v|v]; simpl enqueued; try done.
      + unfold release_order.
        rewrite <- !app_assoc. apply Permutation_app_head.
        simpl. by rewrite Permutation_middle.
      + by rewrite <- app_assoc. }
  unfold release_order in H. split; [done|]. split.
  - rewrite <- !length_app. by rewrite H.
  - intros func Hin. apply elem_of_app. rewrite H. apply elem_of_app.
    by right.
Qed.

Lemma invoked_check force w :
  invoked (check force w) = invoked w \/
  exists func, invoked (check force w) = invoked w ++ [func].
Proof.
  unfold check. destruct (_queue (bucket w)) as [|func rest].
  - left. by destruct (processing (bucket w)) as [[]|].
  - destruct (truthy _ && negb force); [by left|]. cbn zeta.
    destruct (_ <=? 0); [by left|]. right. by exists func.
Qed.

Lemma invoked_step e w :
  invoked (step e w) = invoked w \/
  exists func, invoked (step e w) = invoked w ++ [func].
Proof.
  destruct e as [func priority|func|h|d|v|v|v|v]; simpl step;
    try (by left).
  - unfold queue. cbn zeta. apply (invoked_check false (set_bucket _ w)).
  - unfold completion_cb.
    destruct (_queue (bucket (completed func w))); [by left|].
    apply (invoked_check true (completed func w)).
  - unfold fire. destruct (timers w !! h); [|by left].
    destruct (_ <=? _); [|by left].
    unfold timer_cb.
    apply (invoked_check true
             (set_bucket _ (clearTimeout h w))).
Qed.

(** X5.  The record of invocations only grows at its end: what has been
    invoked stays invoked, in the same order, and an event makes the
    bucket invoke at most one function, so an execution of [n] events
    invokes at most [n]. *)
Theorem invocations_only_append (tr : list event) (w : world) :
  invoked w `prefix_of` invoked (run tr w) /\
  (length (invoked (run tr w)) <= length (invoked w) + length tr)%nat /\
  forall e, invoked (step e w) = invoked w \/
            exists func, invoked (step e w) = invoked w ++ [func].
Proof.
  split; [|split].
  - revert w. induction tr as [|e tr IH]; intros w; [done|].
    simpl. etrans; [|apply IH].
    destruct (invoked_step e w) as [->|[func ->]]; [done|].
    by apply prefix_app_r.
  - revert w. induction tr as [|e tr IH]; intros w; simpl; [lia|].
    specialize (IH (step e w)).
    destruct (invoked_step e w) as [E|[func E]]; rewrite E in IH;
      rewrite ?length_app in IH; simpl in IH; lia.
  - intros e. apply invoked_step.
Qed.

(** ** The quota *)

Lemma check_keeps_remaining_in_range force w :
  0 <= remaining (bucket w) <= limit (bucket w) ->
  0 <= remaining (bucket (check force w)) <= limit (bucket (check force w)).
Proof.
  intros Hr.
  destruct (reaches_quota_check force w) eqn:Hre.
  - destruct (reaches_cases _ _ Hre) as (func & rest & Hq & Hg).
    assert (Hb : 0 <= remaining (refilled w) <= limit (bucket w)).
    { unfold refilled, window_refill.
      destruct (_ || _); simpl; lia. }
    rewrite (proj1 (check_frame force w)).
    destruct (Z_le_gt_dec (remaining (refilled w)) 0) as [Hle|Hgt].
    + rewrite check_exhausted; [|done..]. simpl. lia.
    + rewrite (check_released _ _ _ _ Hq Hg); [|lia]. simpl. lia.
  - destruct (check_early_return _ _ Hre) as (_ & _ & _ & -> & _).
    by rewrite (proj1 (check_frame force w)).
Qed.

(** X6.  Start with [0 <= remaining <= limit], as after construction with
    a [limit] that is not negative.  As long as the external layer writes
    neither [limit] nor [remaining], the bucket keeps [remaining] between
    0 and [limit]: its own decrements never take it below zero. *)
Theorem remaining_stays_in_range (tr : list event) (w : world) :
  0 <= remaining (bucket w) <= limit (bucket w) ->
  quota_untouched tr = true ->
  0 <= remaining (bucket (run tr w)) <= limit (bucket (run tr w)) /\
  limit (bucket (run tr w)) = limit (bucket w).
Proof.
  revert w. induction tr as [|e tr IH]; intros w Hr Hq; [done|].
  simpl in Hq. apply andb_true_iff in Hq as [He Hq]. simpl run.
  assert (Hs : 0 <= remaining (bucket (step e w))
               <= limit (bucket (step e w)) /\
               limit (bucket (step e w)) = limit (bucket w)).
  { destruct e as [func priority|func|h|d|v|v|v|v]; simpl step;
      try done.
    - split; [|apply queue_frame]. unfold queue. cbn zeta.
      by apply check_keeps_remaining_in_range.
    - split; [|apply (completion_cb_frame (completed func w))].
      unfold completion_cb.
      destruct (_queue (bucket (completed func w))); [done|].
      by apply check_keeps_remaining_in_range.
    - split; [|apply fire_frame].
      unfold fire. destruct (timers w !! h); [|done].
      destruct (_ <=? _); [|done].
      unfold timer_cb. by apply check_keeps_remaining_in_range. }
  destruct Hs as [Hs1 Hs2]. destruct (IH _ Hs1 Hq) as [H1 H2].
  split; [done|]. by rewrite H2.
Qed.

Lemma remaining_stays_in_range_witness :
  let tr := [EQueue 1 false; EQueue 2 false; EDone 1; EQueue 3 false;
             EDone 2; ETick 40; ETimeout 0; ESetReset 5000]%nat in
  let w0 := fresh_world 2 (mkLatencyRef 25) 1000 in
  0 <= remaining (bucket w0) <= limit (bucket w0) /\
  quota_untouched tr = true /\
  0 <= remaining (bucket (run tr w0)) <= limit (bucket (run tr w0)).
Proof.
  cbn zeta. split; [by vm_compute|]. split; [done|].
  refine (proj1 (remaining_stays_in_range _ _ _ _)); by vm_compute.
Defined.

Lemma elapsed_nonneg tr : no_external_write tr = true -> 0 <= elapsed tr.
Proof.
  induction tr as [|e tr IH]; simpl; [done|].
  intros [He Htr]%andb_true_iff. specialize (IH Htr).
  destruct e; try done. apply Z.leb_le in He. lia.
Qed.

Lemma clock_check force w : clock (check force w) = clock w.
Proof.
  unfold check. destruct (_queue (bucket w)).
  - by destruct (processing (bucket w)) as [[]|].
  - destruct (_ && _); [done|]. cbn zeta. by destruct (_ <=? 0).
Qed.

Lemma check_in_current_window force w :
  reset (bucket w) <> 0 ->
  clock w - latency (latencyRef w) <= reset (bucket w) ->
  let w' := check force w in
  reset (bucket w') = reset (bucket w) /\
  latencyRef w' = latencyRef w /\ clock w' = clock w /\
  Z.of_nat (length (invoked w')) + Z.max 0 (remaining (bucket w'))
  = Z.of_nat (length (invoked w)) + Z.max 0 (remaining (bucket w)).
Proof.
  intros H0 Hc w'. subst w'.
  assert (Hre : refilled w = bucket w).
  { unfold refilled. by apply window_refill_current. }
  destruct (reaches_quota_check force w) eqn:Hr.
  - destruct (reaches_cases _ _ Hr) as (func & rest & Hq & Hg).
    destruct (Z_le_gt_dec (remaining (bucket w)) 0) as [Hle|Hgt].
    + rewrite check_exhausted; [|done|by rewrite Hre].
      rewrite Hre. by repeat split.
    + rewrite (check_released _ _ _ _ Hq Hg); [|rewrite Hre; lia].
      rewrite Hre. simpl. repeat split; try done.
      rewrite length_app. simpl. lia.
  - destruct (check_early_return _ _ Hr) as (Hi & _ & _ & Hrm & Hrs & _).
    rewrite Hi, Hrm, Hrs. repeat split; try done.
    + apply check_frame.
    + apply clock_check.
Qed.

(** X7.  The rate limit itself.  Take a state whose window is known and
    not over ([reset] is not 0 and [now - latency <= reset]) and let
    functions be queued, complete and timers fire while the clock moves
    forward but not past [reset + latency], the external layer writing
    nothing.  Then no refill happens: every invocation costs one permit,
    so the bucket invokes at most [max(0, remaining)] functions, however
    many are queued. *)
Theorem at_most_remaining_per_window (tr : list event) (w : world) :
  reset (bucket w) <> 0 ->
  no_external_write tr = true ->
  clock w + elapsed tr - latency (latencyRef w) <= reset (bucket w) ->
  let w' := run tr w in
  reset (bucket w') = reset (bucket w) /\
  Z.of_nat (length (invoked w')) + Z.max 0 (remaining (bucket w'))
  = Z.of_nat (length (invoked w)) + Z.max 0 (remaining (bucket w)) /\
  Z.of_nat (length (invoked w')) - Z.of_nat (length (invoked w))
  <= Z.max 0 (remaining (bucket w)).
Proof.
  intros H0 Hev Hc. cbn zeta.
  assert (H : reset (bucket (run tr w)) = reset (bucket w) /\
              Z.of_nat (length (invoked (run tr w)))
              + Z.max 0 (remaining (bucket (run tr w)))
              = Z.of_nat (length (invoked w))
                + Z.max 0 (remaining (bucket w)));
    [|split; [tauto|split; [tauto|lia]]].
  revert w H0 Hev Hc. induction tr as [|e tr IH]; intros w H0 Hev Hc;
    [done|].
  simpl in Hev. apply andb_true_iff in Hev as [He Hev].
  pose proof (elapsed_nonneg _ Hev) as Hpos. simpl run.
  assert (Hs : reset (bucket (step e w)) = reset (bucket w) /\
               latencyRef (step e w) = latencyRef w /\
               clock (step e w) + elapsed tr = clock w + elapsed (e :: tr) /\
               Z.of_nat (length (invoked (step e w)))
               + Z.max 0 (remaining (bucket (step e w)))
               = Z.of_nat (length (invoked w))
                 + Z.max 0 (remaining (bucket w))).
  { destruct e as [func priority|func|h|d|v|v|v|v]; simpl step;
      simpl elapsed; simpl in Hc; try done.
    - unfold queue. cbn zeta.
      destruct (check_in_current_window false
                  (set_bucket
                     (set_queue
                        (if priority then func :: _queue (bucket w)
                         else _queue (bucket w) ++ [func]) (bucket w)) w))
        as (H1 & H2 & H3 & H4); [simpl; done|simpl; lia|].
      rewrite H1, H2, H3, H4. done.
    - unfold completion_cb.
      destruct (_queue (bucket (completed func w))); [done|].
      destruct (check_in_current_window true (completed func w))
        as (H1 & H2 & H3 & H4); [simpl; done|simpl; lia|].
      rewrite H1, H2, H3, H4. done.
    - unfold fire. destruct (timers w !! h); [|done].
      destruct (_ <=? _); [|done]. unfold timer_cb.
      destruct (check_in_current_window true
                  (set_bucket (set_processing (PBool false)
                                 (bucket (clearTimeout h w)))
                              (clearTimeout h w)))
        as (H1 & H2 & H3 & H4); [simpl; done|simpl; lia|].
      rewrite H1, H2, H3, H4. done.
    - repeat split; try done. simpl. lia. }
  destruct Hs as (Hs1 & Hs2 & Hs3 & Hs4).
  destruct (IH (step e w)) as [H1 H2].
  - by rewrite Hs1.
  - done.
  - rewrite Hs1, Hs2, Hs3. done.
  - rewrite H1, H2. done.
Qed.

Lemma at_most_remaining_per_window_witness :
  let w := set_bucket (mkBucket [] 900 5 (PBool false) 2 1500)
                      (fresh_world 5 (mkLatencyRef 20) 1000) in
  let tr := [EQueue 1 false; EQueue 2 false; EQueue 3 true; EDone 1;
             ETick 100; EDone 3; EQueue 4 false; ETick 400]%nat in
  reset (bucket w) <> 0 /\ no_external_write tr = true /\
  clock w + elapsed tr - latency (latencyRef w) <= reset (bucket w) /\
  invoked (run tr w) = [1; 3]%nat /\
  Z.of_nat (length (invoked (run tr w))) - Z.of_nat (length (invoked w))
  <= Z.max 0 (remaining (bucket w)).
Proof.
  cbn zeta. split; [by vm_compute|]. split; [done|].
  split; [by vm_compute|]. split; [by vm_compute|].
  refine (proj2 (proj2 (at_most_remaining_per_window _ _ _ _ _)));
    by vm_compute.
Defined.

(** ** The wake-up *)

(** X8.  The delay of line 48 is long enough.  Let a timer have been
    armed at time [a] with the delay [max(0, reset - a + latency) + 1]
    computed from the [reset] and the latency that are still current.
    When it fires, its delay elapsed, with a non-empty queue and a
    positive [limit], the evaluation it forces finds the window over: it
    sets [reset] to [now - latency], restores [remaining] to [limit] and
    invokes the head of the queue; it never has to wait a second time. *)
Theorem wake_up_finds_the_window_over (w : world) (h : nat) (a : Z)
        (func : work) (rest : list work) :
  timers w !! h
  = Some (mkTimer a (wake_delay a (latency (latencyRef w)) (bucket w))) ->
  a + wake_delay a (latency (latencyRef w)) (bucket w) <= clock w ->
  _queue (bucket w) = func :: rest ->
  0 < limit (bucket w) ->
  let w' := step (ETimeout h) w in
  invoked w' = invoked w ++ [func] /\
  in_flight w' = func :: in_flight w /\
  _queue (bucket w') = rest /\
  reset (bucket w') = clock w - latency (latencyRef w) /\
  remaining (bucket w') = limit (bucket w) - 1 /\
  processing (bucket w') = PBool true /\
  timers w' = delete h (timers w).
Proof.
  intros Hh Hdue Hq Hlim. simpl step. unfold fire. rewrite Hh.
  unfold due. simpl armed_at. simpl delay.
  replace (_ <=? clock w) with true by (symmetry; by apply Z.leb_le).
  unfold timer_cb.
  match goal with |- context [check true ?x] => set (w3 := x) end.
  assert (Hre3 : refilled w3
                 = set_remaining (limit (bucket w))
                     (set_reset (clock w - latency (latencyRef w))
                                (bucket w3))).
  { unfold refilled. rewrite window_refill_elapsed; [done|].
    right. subst w3. simpl. unfold wake_delay in Hdue. lia. }
  cbn zeta.
  rewrite (check_released true w3 func rest); [|done|done|].
  - cbn zeta. rewrite Hre3. subst w3. by repeat split.
  - rewrite Hre3. simpl. lia.
Qed.

Lemma wake_up_finds_the_window_over_witness :
  let w := step (ETick 521)
             (run [EQueue 1 false; EQueue 2 true; EQueue 3 false; ETick 5;
                   EDone 1; ESetRemaining 0; ESetReset 1500; EDone 2]%nat
                  (fresh_world 2 (mkLatencyRef 25) 1000)) in
  timers w !! 0%nat
  = Some (mkTimer 1005
            (wake_delay 1005 (latency (latencyRef w)) (bucket w))) /\
  1005 + wake_delay 1005 (latency (latencyRef w)) (bucket w) <= clock w /\
  _queue (bucket w) = [3%nat] /\
  0 < limit (bucket w) /\
  invoked (step (ETimeout 0) w) = [1; 2; 3]%nat /\
  remaining (bucket (step (ETimeout 0) w)) = 1.
Proof.
  cbn zeta.
  split; [by vm_compute|]. split; [by vm_compute|].
  split; [by vm_compute|]. split; [by vm_compute|].
  destruct (wake_up_finds_the_window_over
              (step (ETick 521)
                 (run [EQueue 1 false; EQueue 2 true; EQueue 3 false;
                       ETick 5; EDone 1; ESetRemaining 0; ESetReset 1500;
                       EDone 2]%nat
                      (fresh_world 2 (mkLatencyRef 25) 1000)))
              0%nat 1005 3%nat []
              ltac:(by vm_compute) ltac:(by vm_compute)
              ltac:(by vm_compute) ltac:(by vm_compute))
    as (H1 & _ & _ & _ & H2 & _).
  split; [exact H1|exact H2].
Defined.

(** X9.  A bucket whose [limit] is zero or negative polls.  When an
    evaluation gets past the early returns and refills such a bucket, it
    invokes nothing and arms a timer of exactly 1 ms; and when that timer
    fires, [limit], [reset] and the latency being what they were and the
    queue still not empty, the forced evaluation refills again, invokes
    nothing and arms the next 1 ms timer. *)
Theorem nonpositive_limit_polls_every_millisecond (force : bool)
        (w : world) :
  reaches_quota_check force w = true ->
  limit (bucket w) <= 0 ->
  reset (bucket w) = 0 \/
  reset (bucket w) < clock w - latency (latencyRef w) ->
  let h := next_handle w in
  let w1 := check force w in
  (invoked w1 = invoked w /\
   _queue (bucket w1) = _queue (bucket w) /\
   remaining (bucket w1) = limit (bucket w) /\
   reset (bucket w1) = clock w - latency (latencyRef w) /\
   processing (bucket w1) = PTimeout h /\
   timers w1 = <[h := mkTimer (clock w) 1]> (timers w)) /\
  forall w2,
    timers w2 !! h = Some (mkTimer (clock w) 1) ->
    clock w + 1 <= clock w2 ->
    reset (bucket w2) = reset (bucket w1) ->
    latencyRef w2 = latencyRef w ->
    limit (bucket w2) <= 0 ->
    _queue (bucket w2) <> [] ->
    let w3 := step (ETimeout h) w2 in
    invoked w3 = invoked w2 /\
    processing (bucket w3) = PTimeout (next_handle w2) /\
    timers w3 = <[next_handle w2 := mkTimer (clock w2) 1]>
                  (delete h (timers w2)).
Proof.
  assert (Hone : forall force w,
    reaches_quota_check force w = true ->
    limit (bucket w) <= 0 ->
    reset (bucket w) = 0 \/
    reset (bucket w) < clock w - latency (latencyRef w) ->
    check force w
    = set_bucket
        (set_processing (PTimeout (next_handle w))
           (set_last (clock w)
              (set_remaining (limit (bucket w))
                 (set_reset (clock w - latency (latencyRef w))
                            (bucket w)))))
        (snd (setTimeout 1 w))).
  { clear. intros force w Hr Hlim Hel.
    assert (Hre : refilled w
                  = set_remaining (limit (bucket w))
                      (set_reset (clock w - latency (latencyRef w))
                                 (bucket w))).
    { unfold refilled. by apply window_refill_elapsed. }
    rewrite check_exhausted; [|done|by rewrite Hre].
    cbn zeta. rewrite Hre. unfold wake_delay. simpl.
    replace (clock w - latency (latencyRef w) - clock w
             + latency (latencyRef w)) with 0 by lia.
    done. }
  intros Hr Hlim Hel h w1. subst w1. rewrite (Hone _ _ Hr Hlim Hel).
  split; [by repeat split|].
  intros w2 Hh Hc Hrs Hlat Hlim2 Hq2 w3. subst w3.
  simpl step. unfold fire. rewrite Hh. unfold due. simpl armed_at.
  simpl delay.
  replace (_ <=? clock w2) with true by (symmetry; by apply Z.leb_le).
  unfold timer_cb. rewrite Hone.
  - by repeat split.
  - unfold reaches_quota_check. simpl.
    by destruct (_queue (bucket w2)).
  - done.
  - right. simpl in *. rewrite Hrs, Hlat. lia.
Qed.

Lemma nonpositive_limit_polls_every_millisecond_witness :
  let w := run [ESetLimit 0]
               (set_bucket (mkBucket [4%nat] 0 3 (PBool false) 3 0)
                           (fresh_world 3 (mkLatencyRef 20) 1000)) in
  reaches_quota_check false w = true /\
  limit (bucket w) <= 0 /\
  reset (bucket w) = 0 /\
  invoked (check false w) = [] /\
  timers (check false w) = <[0%nat := mkTimer 1000 1]> ∅.
Proof.
  cbn zeta. split; [done|]. split; [by vm_compute|]. split; [done|].
  destruct (nonpositive_limit_polls_every_millisecond false
              (run [ESetLimit 0]
                 (set_bucket (mkBucket [4%nat] 0 3 (PBool false) 3 0)
                             (fresh_world 3 (mkLatencyRef 20) 1000)))
              eq_refl ltac:(by vm_compute) (or_introl eq_refl))
    as [(H1 & _ & _ & _ & _ & H2) _].
  exact (conj H1 H2).
Defined.

(** ** The field [last] *)

Lemma erase_last_check force w :
  erase_last (check force (erase_last w)) = erase_last (check force w).
Proof.
  unfold check, erase_last. simpl.
  destruct (_queue (bucket w)) as [|func rest].
  - by destruct (processing (bucket w)) as [[]|].
  - destruct (truthy _ && negb force); [done|]. cbn zeta.
    unfold window_refill. simpl.
    destruct (_ || _); simpl; destruct (_ <=? 0); done.
Qed.

Lemma erase_last_twice w : erase_last (erase_last w) = erase_last w.
Proof. done. Qed.

Lemma erase_last_step e w :
  erase_last (step e (erase_last w)) = erase_last (step e w).
Proof.
  destruct e as [func priority|func|h|d|v|v|v|v]; simpl step; try done.
  - unfold queue. cbn zeta.
    rewrite <- (erase_last_check false (set_bucket _ w)).
    by rewrite <- (erase_last_check false (set_bucket _ (erase_last w))).
  - unfold completion_cb. simpl.
    destruct (_queue (bucket w)); [done|].
    rewrite <- (erase_last_check true (completed func w)).
    by rewrite <- (erase_last_check true (completed func (erase_last w))).
  - unfold fire. simpl. destruct (timers w !! h); [|done].
    destruct (_ <=? _); [|done]. unfold timer_cb.
    rewrite <- (erase_last_check true (set_bucket _ (clearTimeout h w))).
    by rewrite <- (erase_last_check true
                     (set_bucket _ (clearTimeout h (erase_last w)))).
Qed.

(** X10.  [last] is written and never read.  An evaluation that gets
    past the early returns stores the clock in it and any other leaves it
    alone; and two executions of the same events from states that differ
    in [last] only end in states that differ in [last] only: what the
    bucket invokes, and when, does not depend on it. *)
Theorem last_is_written_never_read (tr : list event) (w1 w2 : world) :
  erase_last w1 = erase_last w2 ->
  erase_last (run tr w1) = erase_last (run tr w2) /\
  invoked (run tr w1) = invoked (run tr w2) /\
  timers (run tr w1) = timers (run tr w2) /\
  forall force,
    last (bucket (check force w1))
    = if reaches_quota_check force w1 then clock w1 else last (bucket w1).
Proof.
  intros He.
  assert (H : erase_last (run tr w1) = erase_last (run tr w2)).
  { revert w1 w2 He. induction tr as [|e tr IH]; intros w1 w2 He; [done|].
    simpl. apply IH.
    by rewrite <- (erase_last_step e w1), He, erase_last_step. }
  split; [done|]. split; [|split].
  - by apply (f_equal invoked) in H.
  - by apply (f_equal timers) in H.
  - intros force. destruct (reaches_quota_check force w1) eqn:Hr.
    + destruct (reaches_cases _ _ Hr) as (func & rest & Hq & Hg).
      destruct (Z_le_gt_dec (remaining (refilled w1)) 0) as [Hle|Hgt].
      * by rewrite check_exhausted.
      * rewrite (check_released _ _ _ _ Hq Hg); [done|lia].
    + apply check_early_return, Hr.
Qed.

Lemma last_is_written_never_read_witness :
  let w1 := fresh_world 2 (mkLatencyRef 25) 1000 in
  let w2 := set_bucket (set_last 777 (bucket w1)) w1 in
  let tr := [EQueue 1 false; EQueue 2 true; EDone 1; ETick 3;
             EQueue 3 false; EDone 2]%nat in
  erase_last w1 = erase_last w2 /\
  invoked (run tr w1) = invoked (run tr w2).
Proof.
  cbn zeta. split; [done|].
  refine (proj1 (proj2 (last_is_written_never_read _ _ _ _))). done.
Defined.

(** ** Draining one function after the other *)

Lemma queue_then_done func w :
  _queue (bucket w) = [] -> processing (bucket w) = PBool false ->
  in_flight w = [] ->
  clock w - latency (latencyRef w) <> 0 ->
  remaining (refilled w) = remaining (bucket w) ->
  0 < remaining (bucket w) ->
  let w' := run [EQueue func false; EDone func] w in
  (_queue (bucket w') = [] /\ processing (bucket w') = PBool false /\
   in_flight w' = []) /\
  (reset (bucket w') = reset (refilled w) /\
   reset (bucket w') <> 0 /\
   clock w' - latency (latencyRef w') <= reset (bucket w')) /\
  invoked w' = invoked w ++ [func] /\
  remaining (bucket w') = remaining (bucket w) - 1 /\
  (limit (bucket w') = limit (bucket w) /\ timers w' = timers w /\
   next_handle w' = next_handle w /\ clock w' = clock w /\
   latencyRef w' = latencyRef w).
Proof.
  intros Hq Hp Hf Hc Hre Hpos. cbn zeta. simpl run. simpl step.
  unfold queue. cbn zeta. rewrite Hq. simpl app.
  set (w1 := set_bucket (set_queue [func] (bucket w)) w).
  assert (Hre1 : refilled w1 = set_queue [func] (refilled w)).
  { unfold refilled, window_refill. simpl. by destruct (_ || _). }
  rewrite (check_released false w1 func []);
    [|done|by simpl; rewrite Hp|rewrite Hre1; simpl; lia].
  cbn zeta. rewrite Hre1. unfold completion_cb. simpl.
  rewrite Hf, decide_True by done.
  pose proof (window_refill_frame (clock w) (latency (latencyRef w))
                (bucket w)) as (_ & _ & Hlim & _).
  fold (refilled w) in Hlim.
  split; [done|]. split; [|by rewrite Hre, Hlim].
  split; [done|].
  unfold refilled, window_refill.
  destruct (reset (bucket w) =? 0) eqn:E0; simpl; [lia|].
  destruct (reset (bucket w) <? _) eqn:E1; simpl; [lia|].
  apply Z.eqb_neq in E0. apply Z.ltb_ge in E1. lia.
Qed.

Lemma one_by_one_drains fs w :
  _queue (bucket w) = [] -> processing (bucket w) = PBool false ->
  in_flight w = [] ->
  clock w - latency (latencyRef w) <> 0 ->
  remaining (refilled w) = remaining (bucket w) ->
  Z.of_nat (length fs) <= remaining (bucket w) ->
  let w' := run (one_by_one fs) w in
  (_queue (bucket w') = [] /\ processing (bucket w') = PBool false /\
   in_flight w' = []) /\
  (fs <> [] -> reset (bucket w') = reset (refilled w)) /\
  invoked w' = invoked w ++ fs /\
  remaining (bucket w') = remaining (bucket w) - Z.of_nat (length fs) /\
  (limit (bucket w') = limit (bucket w) /\ timers w' = timers w /\
   next_handle w' = next_handle w /\ clock w' = clock w /\
   latencyRef w' = latencyRef w).
Proof.
  revert w. induction fs as [|func fs IH]; intros w Hq Hp Hf Hc Hre Hlen.
  { cbn zeta. simpl. rewrite app_nil_r. repeat split; try done. lia. }
  simpl length in Hlen. cbn zeta.
  change (one_by_one (func :: fs))
    with ([EQueue func false; EDone func] ++ one_by_one fs).
  rewrite run_app.
  destruct (queue_then_done func w Hq Hp Hf Hc Hre ltac:(lia))
    as ((Hq1 & Hp1 & Hf1) & (Hs1 & Hr1 & Hw1) & Hi1 & Hm1 & Hl1 & Ht1
        & Hn1 & Hc1 & Ha1).
  set (w1 := run [EQueue func false; EDone func] w) in *.
  assert (Hre1 : refilled w1 = bucket w1).
  { unfold refilled. by apply window_refill_current. }
  destruct (IH w1) as ((Hq2 & Hp2 & Hf2) & Hs2 & Hi2 & Hm2 & Hl2 & Ht2
                       & Hn2 & Hc2 & Ha2); try done.
  { by rewrite Hc1, Ha1. }
  { by rewrite Hre1. }
  { lia. }
  split; [done|]. split.
  - intros _. destruct fs as [|f' fs']; [exact Hs1|].
    rewrite Hs2; [|done]. rewrite Hre1. exact Hs1.
  - rewrite Hi2, Hi1, Hm2, Hm1, Hl2, Hl1, Ht2, Ht1, Hn2, Hn1, Hc2, Hc1,
      Ha2, Ha1, <- app_assoc.
    repeat split; try done. simpl length. lia.
Qed.

(** X11.  A new bucket with [limit] at least the number of functions
    [fs], used at an instant when [now - latency] is not 0: if the
    functions are queued one after the other, each signalling completion
    before the next is queued, every one is invoked at once, in that
    order, no timer is ever armed, and the bucket ends idle with
    [remaining = limit - length fs].  If that used the whole [limit], the
    next function queued, with or without priority, is not invoked: it
    stays in the queue behind a timer of 1 ms. *)
Theorem functions_within_the_limit_go_straight_through
        (limit0 : Z) (r : LatencyRef) (t : Z) (fs : list work) :
  t - latency r <> 0 ->
  Z.of_nat (length fs) <= limit0 ->
  let w := run (one_by_one fs) (fresh_world limit0 r t) in
  (invoked w = fs /\ in_flight w = [] /\ _queue (bucket w) = [] /\
   processing (bucket w) = PBool false /\ timers w = ∅ /\
   remaining (bucket w) = limit0 - Z.of_nat (length fs)) /\
  (fs <> [] -> Z.of_nat (length fs) = limit0 ->
   forall func priority,
     let w' := queue func priority w in
     invoked w' = fs /\ _queue (bucket w') = [func] /\
     processing (bucket w') = PTimeout 0 /\
     timers w' = {[0%nat := mkTimer t 1]}).
Proof.
  intros Hc Hlen w.
  assert (Hre0 : refilled (fresh_world limit0 r t)
                 = set_remaining limit0
                     (set_reset (t - latency r) (constructor limit0))).
  { unfold refilled. rewrite window_refill_elapsed; [done|by left]. }
  destruct (one_by_one_drains fs (fresh_world limit0 r t))
    as ((Hq & Hp & Hf) & Hs & Hi & Hm & Hl & Ht & Hn & Hck & Ha);
    try done.
  fold w in Hq, Hp, Hf, Hs, Hi, Hm, Hl, Ht, Hn, Hck, Ha.
  rewrite Hre0 in Hs. simpl in Hs, Hi, Hm, Hl, Ht, Hn, Hck, Ha.
  split; [by repeat split|].
  intros Hne Hall func priority w'. specialize (Hs Hne).
  subst w'. unfold queue. cbn zeta. rewrite Hq.
  replace (if priority then [func] else [] ++ [func]) with [func]
    by (by destruct priority).
  set (w1 := set_bucket (set_queue [func] (bucket w)) w).
  assert (Hre1 : refilled w1 = bucket w1).
  { unfold refilled. apply window_refill_current; simpl.
    - by rewrite Hs.
    - rewrite Hs, Hck, Ha. lia. }
  rewrite check_exhausted.
  - cbn zeta. rewrite Hre1. unfold wake_delay. simpl.
    rewrite Hi, Hn, Ht, Hck, Ha, Hs, insert_empty.
    replace (t - latency r - t + latency r) with 0 by lia. done.
  - unfold reaches_quota_check. simpl. by rewrite Hp.
  - rewrite Hre1. simpl. lia.
Qed.

Lemma functions_within_the_limit_go_straight_through_witness :
  let w := run (one_by_one [4; 5; 6]%nat)
               (fresh_world 3 (mkLatencyRef 20) 1000) in
  1000 - latency (mkLatencyRef 20) <> 0 /\
  Z.of_nat (length [4; 5; 6]%nat) <= 3 /\
  invoked w = [4; 5; 6]%nat /\ remaining (bucket w) = 0 /\
  timers (queue 7%nat false w) = {[0%nat := mkTimer 1000 1]}.
Proof.
  cbn zeta. split; [by vm_compute|]. split; [by vm_compute|].
  destruct (functions_within_the_limit_go_straight_through
              3 (mkLatencyRef 20) 1000 [4; 5; 6]%nat
              ltac:(by vm_compute) ltac:(by vm_compute))
    as [(H1 & _ & _ & _ & _ & H2) H3].
  split; [exact H1|]. split; [exact H2|].
  destruct (H3 ltac:(done) eq_refl 7%nat false) as (_ & _ & _ & H4).
  exact H4.
Defined.
